(** * Verification of the day-scheduling optimizer (src/solver.py)

    The optimizer formulates a 0/1 linear program (selection, day
    activation and same-day ordering variables), hands it to an external
    mixed-integer engine (PuLP driving CBC) and rebuilds a per-day ordered
    schedule from the values the engine leaves in the variables.

    The linear program is embedded as data (expressions, constraints,
    objective) built the way [Optimizer.optimize] builds it; the engine is
    an explicit interaction whose answer is a valuation of the variables
    together with a status.  The call is embedded twice: once with total
    lookups and an engine that answers ([optimize]), for the properties of
    the results, and once with every lookup, the buffer addition and the
    engine run able to raise ([optimize_call]), for the properties of
    failures; the two agree whenever the engine answers.  Python integers are [Z], the variable values
    (floats compared against 0.5) are rationals [Q], the insertion-ordered
    dictionary of occurrences is an association list, and the dictionaries
    whose order is irrelevant are [gmap]s. *)

From Stdlib Require Import QArith Lqa Ascii.
From stdpp Require Import gmap strings list fin_maps sorting.

Set Warnings "-clear-no-such-hyp".
Local Open Scope Z_scope.

(** ** Data model *)

(** [class EventInstanceEntry(BaseModel)]; [end] is a reserved word. *)
Record EventInstanceEntry := {
  event : Z;
  day : Z;
  start : Z;
  end_ : Z;
  loc : string
}.

(** [occurrences[k]] on the insertion-ordered dictionary. *)
Fixpoint getitem (d : list (string * EventInstanceEntry)) (k : string)
  : option EventInstanceEntry :=
  match d with
  | [] => None
  | (k', e) :: d' => if decide (k' = k) then Some e else getitem d' k
  end.

(** [sorted(set(...))] on integers: insertion into a strictly increasing
    list. *)
Fixpoint insert_uniq (z : Z) (l : list Z) : list Z :=
  match l with
  | [] => [z]
  | z' :: l' =>
      if decide (z < z') then z :: l
      else if decide (z = z') then l
      else z' :: insert_uniq z l'
  end.

Definition sorted_set (l : list Z) : list Z := foldr insert_uniq [] l.

(** [itertools.permutations(l, 2)]: every ordered pair of two different
    positions, first position outermost. *)
Fixpoint permutations2_from {A} (seen rest : list A) : list (A * A) :=
  match rest with
  | [] => []
  | a :: rest' =>
      (pair a <$> (seen ++ rest')) ++ permutations2_from (seen ++ [a]) rest'
  end.

Definition permutations2 {A} (l : list A) : list (A * A) :=
  permutations2_from [] l.

(** [sorted(l, key=...)]: Python's sort is stable; insertion from the right
    places an element before the first element whose key is not smaller. *)
Fixpoint insert_by {A} (key : A → nat) (a : A) (l : list A) : list A :=
  match l with
  | [] => [a]
  | b :: l' =>
      if decide (key a ≤ key b)%nat then a :: l else b :: insert_by key a l'
  end.

Definition sorted {A} (l : list A) (key : A → nat) : list A :=
  foldr (insert_by key) [] l.

Definition key_le {A} (key : A → nat) (a b : A) : Prop := (key a ≤ key b)%nat.

(** ** The Optimizer object *)

Record Optimizer := {
  occurrences : list (string * EventInstanceEntry);
  travel_distances : gmap (string * string) Z;
  buffer_minutes : Z;
  H : Z;
  K : list string;
  events : list Z;
  days : list Z;
  same_day_pairs : list (string * string);
  M : Z
}.

(** The entry read by [occurrences[k]].  The lookup raises [KeyError] on an
    absent key; every key the optimizer reads comes from [K], so the
    fallback entry is never observed (lemma [occ_of_key]). *)
Definition occ_in (occs : list (string * EventInstanceEntry)) (k : string)
  : EventInstanceEntry :=
  default {| event := 0; day := 0; start := 0; end_ := 0; loc := "" |}
          (getitem occs k).

(** [Optimizer.__init__]; the buffer argument is optional and defaults to
    60. *)
Definition init (occs : list (string * EventInstanceEntry))
    (travel : gmap (string * string) Z) (buffer_arg : option Z) : Optimizer :=
  let keys := occs.*1 in
  {| occurrences := occs;
     travel_distances := travel;
     buffer_minutes := default 60 buffer_arg;
     H := 60;
     K := keys;
     events := sorted_set ((λ e, event e) <$> occs.*2);
     days := sorted_set ((λ e, day e) <$> occs.*2);
     same_day_pairs :=
       filter (λ p, day (occ_in occs p.1) = day (occ_in occs p.2) ∧ p.1 ≠ p.2)
              (permutations2 keys);
     M := 24 * 60 |}.

Definition occ (self : Optimizer) (k : string) : EventInstanceEntry :=
  occ_in (occurrences self) k.

(** [Optimizer.__travel_time] *)
Definition travel_time (self : Optimizer) (k m : string) : Z :=
  let from_loc := loc (occ self k) in
  let to_loc := loc (occ self m) in
  default 0 (travel_distances self !! (from_loc, to_loc)).

(** ** The linear program *)

(** The three dictionaries of binary variables [x], [u], [y]. *)
Inductive LpVariable :=
| x_ (k : string)
| u_ (d : Z)
| y_ (k m : string).

Inductive LpAffineExpression :=
| LpVar (v : LpVariable)
| LpConst (c : Z)
| LpAdd (e1 e2 : LpAffineExpression)
| LpSub (e1 e2 : LpAffineExpression)
| LpScale (c : Z) (e : LpAffineExpression).

Inductive LpSense := LpLE | LpGE | LpEQ.

Record LpConstraint := {
  c_lhs : LpAffineExpression;
  c_sense : LpSense;
  c_rhs : LpAffineExpression
}.

Record LpProblem := {
  variables : list LpVariable;
  constraints : list LpConstraint;
  objective : LpAffineExpression
}.

Declare Scope lp_scope.
Delimit Scope lp_scope with lp.
Bind Scope lp_scope with LpAffineExpression.
Notation "a + b" := (LpAdd a b) : lp_scope.
Notation "a - b" := (LpSub a b) : lp_scope.
Notation "c * e" := (LpScale c e) : lp_scope.
Notation "a $<= b" := (Build_LpConstraint a%lp LpLE b%lp) (at level 70).
Notation "a $>= b" := (Build_LpConstraint a%lp LpGE b%lp) (at level 70).
Notation "a $== b" := (Build_LpConstraint a%lp LpEQ b%lp) (at level 70).
Coercion LpVar : LpVariable >-> LpAffineExpression.

Definition lpSum (l : list LpAffineExpression) : LpAffineExpression :=
  foldr LpAdd (LpConst 0) l.

(** Objective weights [W1, W2, W3]. *)
Definition W1 : Z := 1000000.
Definition W2 : Z := 1000.
Definition W3 : Z := 1.

Section Model.
Variable self : Optimizer.

(** 1) Exactly one occurrence per event *)
Definition coverage : list LpConstraint :=
  (λ i, lpSum (LpVar ∘ x_ <$> filter (λ k, event (occ self k) = i) (K self))
          $== LpConst 1) <$> events self.

(** 2) Activate day when any occurrence on that day is chosen *)
Definition day_activation : list LpConstraint :=
  d ← days self;
  (λ k, x_ k $<= u_ d) <$> filter (λ k, day (occ self k) = d) (K self).

(** 3) link the ordering variables to the selections *)
Definition linkage : list LpConstraint :=
  p ← same_day_pairs self;
  [ y_ p.1 p.2 $<= x_ p.1 ; y_ p.1 p.2 $<= x_ p.2 ].

(** The pairs kept by the comprehension
    [[(a, b) for a, b in same_day_pairs if a < b and day(a) == day(b)]];
    [a < b] compares strings lexicographically. *)
Definition canonical_pairs : list (string * string) :=
  filter (λ p, String.ltb p.1 p.2 = true
               ∧ day (occ self p.1) = day (occ self p.2))
         (same_day_pairs self).

(** If both chosen, one of the directions must be 1; at most one direction. *)
Definition at_least_one_direction (p : string * string) : LpConstraint :=
  y_ p.1 p.2 + y_ p.2 p.1 $>= x_ p.1 + x_ p.2 - LpConst 1.

Definition at_most_one_direction (p : string * string) : LpConstraint :=
  y_ p.1 p.2 + y_ p.2 p.1 $<= LpConst 1.

Definition one_direction : list LpConstraint :=
  p ← canonical_pairs;
  [ at_least_one_direction p ; at_most_one_direction p ].

(** Time-feasibility with big-M *)
Definition time_constraint (p : string * string) : LpConstraint :=
  let ok := occ self p.1 in
  let om := occ self p.2 in
  LpConst (start om) $>=
    LpConst (end_ ok + travel_time self p.1 p.2 + buffer_minutes self)
    - M self * (LpConst 1 - y_ p.1 p.2).

Definition time_feasibility : list LpConstraint :=
  time_constraint <$> same_day_pairs self.

Definition gap_cost : LpAffineExpression :=
  lpSum ((λ p, (start (occ self p.2) - end_ (occ self p.1))%Z * y_ p.1 p.2)%lp
           <$> same_day_pairs self).

Definition travel_cost : LpAffineExpression :=
  lpSum ((λ p, travel_time self p.1 p.2 * y_ p.1 p.2)%lp
           <$> same_day_pairs self).

Definition obj : LpAffineExpression :=
  (W1 * lpSum (LpVar ∘ u_ <$> days self) + W2 * gap_cost + W3 * travel_cost)%lp.

(** The problem handed to the engine: all variables are declared
    [cat="Binary"]. *)
Definition prob : LpProblem :=
  {| variables :=
       (x_ <$> K self) ++ (u_ <$> days self)
       ++ ((λ p, y_ p.1 p.2) <$> same_day_pairs self);
     constraints :=
       coverage ++ day_activation ++ linkage ++ one_direction
       ++ time_feasibility;
     objective := obj |}.

End Model.

(** ** The external solving engine *)

(** [pulp.LpStatus] *)
Inductive LpStatus := Optimal | Infeasible | Unbounded | NotSolved | Undefined.

(** What [prob.solve] leaves behind: a value in every variable
    ([pulp.value]) and the problem status. *)
Record EngineResult := {
  value : LpVariable → Q;
  lp_status : LpStatus
}.

Fixpoint eval (val : LpVariable → Q) (e : LpAffineExpression) : Q :=
  match e with
  | LpVar v => val v
  | LpConst c => inject_Z c
  | LpAdd e1 e2 => eval val e1 + eval val e2
  | LpSub e1 e2 => eval val e1 - eval val e2
  | LpScale c e' => inject_Z c * eval val e'
  end%Q.

Definition holds (val : LpVariable → Q) (c : LpConstraint) : Prop :=
  match c_sense c with
  | LpLE => eval val (c_lhs c) <= eval val (c_rhs c)
  | LpGE => eval val (c_rhs c) <= eval val (c_lhs c)
  | LpEQ => eval val (c_lhs c) == eval val (c_rhs c)
  end%Q.

Definition binary (q : Q) : Prop := (q == 0 ∨ q == 1)%Q.

Definition feasible (p : LpProblem) (val : LpVariable → Q) : Prop :=
  Forall (λ v, binary (val v)) (variables p) ∧ Forall (holds val) (constraints p).

(** A minimiser of the objective among the feasible 0/1 valuations. *)
Definition optimal (p : LpProblem) (val : LpVariable → Q) : Prop :=
  feasible p val
  ∧ ∀ val', feasible p val' → (eval val (objective p) <= eval val' (objective p))%Q.

(** The contract of the engine: status [Optimal] is reported only together
    with an optimal valuation.  Nothing is promised about the values left
    in the variables under any other status. *)
Definition engine_contract (p : LpProblem) (out : EngineResult) : Prop :=
  lp_status out = Optimal → optimal p (value out).

(** ** Running the optimizer *)

(** A call either returns, raises, or asks the engine to solve a problem
    and continues with its answer. *)
Inductive Run (A : Type) : Type :=
| Return (a : A)
| Raise (err : string)
| Solve (p : LpProblem) (k : EngineResult → Run A).
Arguments Return {A} a.
Arguments Raise {A} err.
Arguments Solve {A} p k.

Inductive Outcome (A : Type) : Type :=
| Returned (a : A)
| Raised (err : string).
Arguments Returned {A} a.
Arguments Raised {A} err.

Fixpoint run {A} (engine : LpProblem → EngineResult) (r : Run A) : Outcome A :=
  match r with
  | Return a => Returned a
  | Raise err => Raised err
  | Solve p k => run engine (k (engine p))
  end.

(** The problems submitted to the engine during a run, in order. *)
Fixpoint engine_calls {A} (engine : LpProblem → EngineResult) (r : Run A)
  : list LpProblem :=
  match r with
  | Return _ | Raise _ => []
  | Solve p k => p :: engine_calls engine (k (engine p))
  end.

(** [pulp.value(v) > 0.5] *)
Definition gt_half (q : Q) : bool := negb (Qle_bool q (1 # 2)).

(** The dictionary returned by [optimize]. *)
Record Result := {
  schedule : gmap Z (list string);
  days_used : nat;
  chosen_occurrences : list string;
  status : LpStatus
}.

Section Extract.
Variable self : Optimizer.
Variable out : EngineResult.

Definition chosen : list string :=
  filter (λ k, gt_half (value out (x_ k)) = true) (K self).

Definition todays (d : Z) : list string :=
  filter (λ k, day (occ self k) = d) chosen.

(** [(k, m) in y and pulp.value(y[(k, m)]) > 0.5] *)
Definition active (k m : string) : bool :=
  bool_decide ((k, m) ∈ same_day_pairs self) && gt_half (value out (y_ k m)).

(** The dictionary [before_count] after the loop over
    [itertools.permutations(todays, 2)]. *)
Definition before_count (d : Z) : gmap string nat :=
  foldl (λ bc p, if active p.1 p.2 then <[p.2 := S (bc !!! p.2)]> bc else bc)
        (list_to_map ((λ k, (k, 0%nat)) <$> todays d))
        (permutations2 (todays d)).

Definition ordered (d : Z) : list string :=
  sorted (todays d) (λ kk, before_count d !!! kk).

Definition build_schedule : gmap Z (list string) :=
  foldl (λ sched d, if ordered d is [] then sched else <[d := ordered d]> sched)
        ∅ (days self).

Definition extract : Result :=
  {| schedule := build_schedule;
     days_used :=
       sum_list ((λ d, Nat.b2n (gt_half (value out (u_ d)))) <$> days self);
     chosen_occurrences := chosen;
     status := lp_status out |}.

End Extract.

(** [Optimizer.optimize]: build the model, solve, process the solution. *)
Definition optimize (self : Optimizer) : Run Result :=
  Solve (prob self) (λ out, Return (extract self out)).

(** ** The call of optimize, with its lookups and exceptions *)

(** The definitions above read dictionaries with total functions.  In
    Python a subscript [d[k]] raises [KeyError] on an absent key, adding
    [None] to an integer raises [TypeError], and [prob.solve] itself raises
    when the engine cannot be run on the problem ([PulpSolverError]).  The
    definitions below follow [Optimizer.optimize] statement by statement
    with every one of these steps able to raise. *)

#[global] Instance outcome_ret : MRet Outcome := λ A a, Returned a.

#[global] Instance outcome_bind : MBind Outcome := λ A B f o,
  match o with
  | Returned a => f a
  | Raised err => Raised err
  end.

(** A loop, or a comprehension, whose rounds each add some items; the
    first round that raises ends it. *)
Fixpoint for_each {A B} (body : A → Outcome (list B)) (l : list A)
  : Outcome (list B) :=
  match l with
  | [] => Returned []
  | a :: l' =>
      items ← body a;
      more ← for_each body l';
      Returned (items ++ more)
  end.

(** An [optimize] call: it ends with a result or an exception, or it runs
    the engine on a problem and continues with what [prob.solve] did,
    return or raise. *)
Inductive Call (A : Type) : Type :=
| Ends (o : Outcome A)
| Engine (p : LpProblem) (k : Outcome EngineResult → Call A).
Arguments Ends {A} o.
Arguments Engine {A} p k.

Fixpoint run_call {A} (solve : LpProblem → Outcome EngineResult) (c : Call A)
  : Outcome A :=
  match c with
  | Ends o => o
  | Engine p k => run_call solve (k (solve p))
  end.

(** The problems on which the engine is run during a call, in order. *)
Fixpoint calls_of {A} (solve : LpProblem → Outcome EngineResult) (c : Call A)
  : list LpProblem :=
  match c with
  | Ends _ => []
  | Engine p k => p :: calls_of solve (k (solve p))
  end.

Section Call.
Variable self : Optimizer.

(** The attribute [self.buffer_minutes] as the constructor received it:
    an integer, or [None] when the caller passed [buffer_minutes=None]
    (the route passes [request.buffer_minutes], an [Optional[int]]).  The
    field [buffer_minutes] of the record holds integers only and is not
    read in this section; the other attributes are read from [self]. *)
Variable buffer : option Z.

(** [self.occurrences[k]] *)
Definition occurrences_at (k : string) : Outcome EventInstanceEntry :=
  match getitem (occurrences self) k with
  | Some e => Returned e
  | None => Raised "KeyError"
  end.

(** [x[k]], [u[d]] and [y[(k, m)]]: the dictionaries of variables have the
    keys [K], [days] and [same_day_pairs]. *)
Definition x_at (k : string) : Outcome LpVariable :=
  if decide (k ∈ K self) then Returned (x_ k) else Raised "KeyError".

Definition u_at (d : Z) : Outcome LpVariable :=
  if decide (d ∈ days self) then Returned (u_ d) else Raised "KeyError".

Definition y_at (p : string * string) : Outcome LpVariable :=
  if decide (p ∈ same_day_pairs self) then Returned (y_ p.1 p.2)
  else Raised "KeyError".

(** [n + self.buffer_minutes] *)
Definition add_buffer (n : Z) : Outcome Z :=
  match buffer with
  | Some minutes => Returned (n + minutes)
  | None => Raised "TypeError"
  end.

(** [self.__travel_time(k, m)] *)
Definition travel_time_at (k m : string) : Outcome Z :=
  from ← occurrences_at k;
  to ← occurrences_at m;
  Returned (default 0 (travel_distances self !! (loc from, loc to))).

(** 1) Exactly one occurrence per event *)
Definition build_coverage : Outcome (list LpConstraint) :=
  for_each (λ i,
    terms ← for_each (λ k,
               e ← occurrences_at k;
               if decide (event e = i)
               then xk ← x_at k; Returned [LpVar xk]
               else Returned []) (K self);
    Returned [lpSum terms $== LpConst 1]) (events self).

(** 2) Activate day when any occurrence on that day is chosen *)
Definition build_day_activation : Outcome (list LpConstraint) :=
  for_each (λ d,
    for_each (λ k,
      e ← occurrences_at k;
      if decide (day e = d)
      then xk ← x_at k; ud ← u_at d; Returned [LpVar xk $<= LpVar ud]
      else Returned []) (K self)) (days self).

(** 3) link the ordering variables to the selections *)
Definition build_linkage : Outcome (list LpConstraint) :=
  for_each (λ p,
    ykm ← y_at p;
    xk ← x_at p.1;
    ykm' ← y_at p;
    xm ← x_at p.2;
    Returned [LpVar ykm $<= LpVar xk; LpVar ykm' $<= LpVar xm])
    (same_day_pairs self).

(** [[(a, b) for a, b in same_day_pairs if a < b and day(a) == day(b)]];
    the second test is evaluated only when the first holds. *)
Definition build_canonical_pairs : Outcome (list (string * string)) :=
  for_each (λ p,
    if String.ltb p.1 p.2
    then ea ← occurrences_at p.1;
         eb ← occurrences_at p.2;
         Returned (if decide (day ea = day eb) then [p] else [])
    else Returned []) (same_day_pairs self).

Definition build_one_direction : Outcome (list LpConstraint) :=
  pairs ← build_canonical_pairs;
  for_each (λ p,
    ykm ← y_at p;
    ymk ← y_at (p.2, p.1);
    xk ← x_at p.1;
    xm ← x_at p.2;
    ykm' ← y_at p;
    ymk' ← y_at (p.2, p.1);
    Returned [LpVar ykm + LpVar ymk $>= LpVar xk + LpVar xm - LpConst 1;
              LpVar ykm' + LpVar ymk' $<= LpConst 1]) pairs.

(** Time-feasibility with big-M: the sum [ok.end + travel + buffer] is
    computed before [y[(k, m)]] is read. *)
Definition build_time_feasibility : Outcome (list LpConstraint) :=
  for_each (λ p,
    ok ← occurrences_at p.1;
    om ← occurrences_at p.2;
    travel ← travel_time_at p.1 p.2;
    need ← add_buffer (end_ ok + travel);
    ykm ← y_at p;
    Returned [LpConst (start om)
              $>= LpConst need - M self * (LpConst 1 - LpVar ykm)])
    (same_day_pairs self).

Definition build_gap_cost : Outcome LpAffineExpression :=
  terms ← for_each (λ p,
             ykm ← y_at p;
             om ← occurrences_at p.2;
             ok ← occurrences_at p.1;
             Returned [((start om - end_ ok)%Z * LpVar ykm)%lp])
             (same_day_pairs self);
  Returned (lpSum terms).

Definition build_travel_cost : Outcome LpAffineExpression :=
  terms ← for_each (λ p,
             ykm ← y_at p;
             travel ← travel_time_at p.1 p.2;
             Returned [(travel * LpVar ykm)%lp])
             (same_day_pairs self);
  Returned (lpSum terms).

Definition build_obj : Outcome LpAffineExpression :=
  gap ← build_gap_cost;
  travel ← build_travel_cost;
  flags ← for_each (λ d, ud ← u_at d; Returned [LpVar ud]) (days self);
  Returned (W1 * lpSum flags + W2 * gap + W3 * travel)%lp.

(** Everything [optimize] does before [prob.solve]. *)
Definition build_prob : Outcome LpProblem :=
  c1 ← build_coverage;
  c2 ← build_day_activation;
  c3 ← build_linkage;
  c4 ← build_one_direction;
  c5 ← build_time_feasibility;
  o ← build_obj;
  Returned {| variables :=
                (x_ <$> K self) ++ (u_ <$> days self)
                ++ ((λ p, y_ p.1 p.2) <$> same_day_pairs self);
              constraints := c1 ++ c2 ++ c3 ++ c4 ++ c5;
              objective := o |}.

Variable out : EngineResult.

(** [[k for k in self.K if pulp.value(x[k]) > 0.5]] *)
Definition read_chosen : Outcome (list string) :=
  for_each (λ k,
    xk ← x_at k;
    Returned (if gt_half (value out xk) then [k] else [])) (K self).

(** [[k for k in chosen if self.occurrences[k].day == d]] *)
Definition read_todays (chosen : list string) (d : Z) : Outcome (list string) :=
  for_each (λ k,
    e ← occurrences_at k;
    Returned (if decide (day e = d) then [k] else [])) chosen.

(** One round of the loop over [itertools.permutations(todays, 2)]:
    [y[(k, m)]] is read only when [(k, m) in y], and [before_count[m] += 1]
    reads [before_count[m]]. *)
Definition count_step (acc : Outcome (gmap string nat)) (p : string * string)
  : Outcome (gmap string nat) :=
  bc ← acc;
  if decide (p ∈ same_day_pairs self) then
    ykm ← y_at p;
    if gt_half (value out ykm) then
      match bc !! p.2 with
      | Some n => Returned (<[p.2 := S n]> bc)
      | None => Raised "KeyError"
      end
    else Returned bc
  else Returned bc.

Definition read_before_count (todays : list string) : Outcome (gmap string nat) :=
  foldl count_step
        (Returned (list_to_map ((λ k, (k, 0%nat)) <$> todays)))
        (permutations2 todays).

(** [sorted(todays, key=lambda kk: before_count[kk])]: the key of every
    element is computed before the elements are compared. *)
Definition read_ordered (todays : list string) : Outcome (list string) :=
  bc ← read_before_count todays;
  keys ← for_each (λ kk,
            match bc !! kk with
            | Some n => Returned [n]
            | None => Raised "KeyError"
            end) todays;
  Returned (sorted todays (λ kk, bc !!! kk)).

(** One round of the loop [for d in self.days]. *)
Definition schedule_step (chosen : list string)
    (acc : Outcome (gmap Z (list string))) (d : Z)
  : Outcome (gmap Z (list string)) :=
  sched ← acc;
  todays ← read_todays chosen d;
  ordered ← read_ordered todays;
  Returned (if ordered is [] then sched else <[d := ordered]> sched).

(** Everything [optimize] does after [prob.solve] has returned. *)
Definition process_solution : Outcome Result :=
  chosen ← read_chosen;
  sched ← foldl (schedule_step chosen) (Returned ∅) (days self);
  flags ← for_each (λ d,
             ud ← u_at d;
             Returned [Nat.b2n (gt_half (value out ud))]) (days self);
  Returned {| schedule := sched;
              days_used := sum_list flags;
              chosen_occurrences := chosen;
              status := lp_status out |}.

End Call.

(** [Optimizer.optimize] as a call: an exception of the model building
    ends it before the engine is run, an exception of [prob.solve] is not
    caught, and the solution is processed when [prob.solve] returns. *)
Definition optimize_call (self : Optimizer) (buffer : option Z) : Call Result :=
  match build_prob self buffer with
  | Raised err => Ends (Raised err)
  | Returned p =>
      Engine p (λ solved,
        match solved with
        | Raised err => Ends (Raised err)
        | Returned out => Ends (process_solution self out)
        end)
  end.

(** What remains of the call once [prob.solve] has returned or raised, in
    terms of the definitions without exceptions. *)
Definition after_solve_of (self : Optimizer) (solved : Outcome EngineResult)
  : Call Result :=
  match solved with
  | Raised err => Ends (Raised err)
  | Returned out => Ends (Returned (extract self out))
  end.

(** ** Properties of inputs, valuations and results *)

(** Well-formed input data in the sense of the data model: occurrences end
    after they start, travel times and the buffer are not negative. *)
Definition well_formed (occs : list (string * EventInstanceEntry))
    (travel : gmap (string * string) Z) (buffer : Z) : Prop :=
  Forall (λ ke, start ke.2 < end_ ke.2) occs
  ∧ map_Forall (λ _ t, 0 ≤ t) travel
  ∧ 0 ≤ buffer.

(** Malformed input: some occurrence does not end after it starts. *)
Definition malformed (occs : list (string * EventInstanceEntry)) : Prop :=
  Exists (λ ke, end_ ke.2 ≤ start ke.2) occs.

(** The constraints of the model read as inequalities on a valuation. *)
Record Sat (self : Optimizer) (val : LpVariable → Q) : Prop := {
  sat_x : ∀ k, k ∈ K self → binary (val (x_ k));
  sat_u : ∀ d, d ∈ days self → binary (val (u_ d));
  sat_y : ∀ p, p ∈ same_day_pairs self → binary (val (y_ p.1 p.2));
  sat_coverage : ∀ i, i ∈ events self →
    (eval val (lpSum (LpVar ∘ x_ <$>
       filter (λ k, event (occ self k) = i) (K self))) == 1)%Q;
  sat_day : ∀ d k, d ∈ days self → k ∈ K self → day (occ self k) = d →
    (val (x_ k) <= val (u_ d))%Q;
  sat_link : ∀ p, p ∈ same_day_pairs self →
    (val (y_ p.1 p.2) <= val (x_ p.1) ∧ val (y_ p.1 p.2) <= val (x_ p.2))%Q;
  sat_direction : ∀ p, p ∈ canonical_pairs self →
    (val (x_ p.1) + val (x_ p.2) - 1 <= val (y_ p.1 p.2) + val (y_ p.2 p.1)
     ∧ val (y_ p.1 p.2) + val (y_ p.2 p.1) <= 1)%Q;
  sat_time : ∀ p, p ∈ same_day_pairs self →
    (inject_Z (end_ (occ self p.1) + travel_time self p.1 p.2
               + buffer_minutes self)
     - inject_Z (M self) * (1 - val (y_ p.1 p.2))
     <= inject_Z (start (occ self p.2)))%Q
}.

(** Switching one day flag off. *)
Definition day_off (val : LpVariable → Q) (d : Z) (v : LpVariable) : Q :=
  match v with
  | u_ d' => if decide (d' = d) then 0%Q else val v
  | _ => val v
  end.

(** Non-overlap: in the order of the per-day list, the later occurrence
    starts no earlier than the end of the earlier one plus travel plus
    buffer. *)
Definition non_overlap (self : Optimizer) (r : Result) : Prop :=
  ∀ d l i j a b,
    schedule r !! d = Some l → l !! i = Some a → l !! j = Some b → (i < j)%nat →
    end_ (occ self a) + travel_time self a b + buffer_minutes self
    ≤ start (occ self b).

(** Coverage: exactly one chosen occurrence per event of the catalogue. *)
Definition exactly_one_per_event (self : Optimizer) (r : Result) : Prop :=
  ∀ i, i ∈ events self →
    ∃ k, filter (λ k, event (occ self k) = i) (chosen_occurrences r) = [k].

(** Coverage: every event id that occurs in the catalogue has exactly one
    of its occurrences among the chosen ones. *)
Definition covers_catalogue (occs : list (string * EventInstanceEntry))
    (self : Optimizer) (r : Result) : Prop :=
  ∀ k0 e0, (k0, e0) ∈ occs →
    ∃ k, (k, occ self k) ∈ occs
         ∧ filter (λ k', event (occ self k') = event e0) (chosen_occurrences r)
           = [k].

(** [days_used] counts the keys of the schedule. *)
Definition days_used_consistent (r : Result) : Prop :=
  days_used r = size (schedule r).

(** The schedule has an entry exactly for the days of chosen occurrences,
    and the entry of a day lists exactly the chosen occurrences of that
    day. *)
Definition schedule_partitions_chosen (self : Optimizer) (r : Result) : Prop :=
  ∀ d,
    (is_Some (schedule r !! d)
     ↔ ∃ k, k ∈ chosen_occurrences r ∧ day (occ self k) = d)
    ∧ ∀ l, schedule r !! d = Some l →
        l ≠ []
        ∧ l ≡ₚ filter (λ k, day (occ self k) = d) (chosen_occurrences r)
        ∧ ∀ k, k ∈ l ↔ k ∈ chosen_occurrences r ∧ day (occ self k) = d.

(** The predecessor count of the specification: the number of other chosen
    occurrences [m] of day [d] with [before[m, k] > 0.5]. *)
Definition predecessor_count (self : Optimizer) (out : EngineResult) (d : Z)
    (k : string) : nat :=
  length (filter (λ m, m ≠ k ∧ gt_half (value out (y_ m k)) = true)
                 (todays self out d)).

(** Extraction as the specification words it: the chosen keys are the keys
    whose selection value exceeds 0.5, and the list of a day is the stable
    ascending sort of that day's chosen keys by predecessor count. *)
Definition extraction_sorted (self : Optimizer) (out : EngineResult)
    (r : Result) : Prop :=
  chosen_occurrences r
  = filter (λ k, gt_half (value out (x_ k)) = true) (K self)
  ∧ ∀ d l, schedule r !! d = Some l →
      let todays := filter (λ k, day (occ self k) = d) (chosen_occurrences r) in
      let count := predecessor_count self out d in
      l ≡ₚ todays
      ∧ StronglySorted (key_le count) l
      ∧ ∀ c, filter (λ k, count k = c) l = filter (λ k, count k = c) todays.

(** Order validity: an occurrence never appears after one it is actively
    ordered before ([before[a, b]] exists and exceeds 0.5). *)
Definition before_respected (self : Optimizer) (out : EngineResult)
    (r : Result) : Prop :=
  ∀ d l i j a b,
    schedule r !! d = Some l → l !! i = Some a → l !! j = Some b →
    active self out a b = true → (i < j)%nat.

(** Exactly one ordering direction between two selected occurrences, none
    as soon as one of them is not selected. *)
Definition direction_resolved (self : Optimizer) (val : LpVariable → Q) : Prop :=
  ∀ k m, (k, m) ∈ same_day_pairs self →
    ((val (x_ k) == 1 ∧ val (x_ m) == 1 →
      (val (y_ k m) == 1 ∧ val (y_ m k) == 0)
      ∨ (val (y_ k m) == 0 ∧ val (y_ m k) == 1))
     ∧ (¬ (val (x_ k) == 1 ∧ val (x_ m) == 1) →
        ¬ (val (y_ k m) == 1 ∧ val (y_ m k) == 1)
        ∧ val (y_ k m) == 0 ∧ val (y_ m k) == 0))%Q.

(** The pair set holds both orientations of every two different keys of one
    day. *)
Definition pairs_symmetric (self : Optimizer) : Prop :=
  ∀ k m, k ∈ K self → m ∈ K self → k ≠ m →
    day (occ self k) = day (occ self m) →
    (k, m) ∈ same_day_pairs self ∧ (m, k) ∈ same_day_pairs self.

(** The one-direction constraints exist for the orientation whose first key
    is the smaller string, and for no other pair. *)
Definition canonical_only (self : Optimizer) : Prop :=
  (∀ k m, (k, m) ∈ canonical_pairs self
          ↔ (k, m) ∈ same_day_pairs self ∧ String.ltb k m = true)
  ∧ (∀ k m, (k, m) ∈ same_day_pairs self →
       ((k, m) ∈ canonical_pairs self ∧ (m, k) ∉ canonical_pairs self)
       ∨ ((m, k) ∈ canonical_pairs self ∧ (k, m) ∉ canonical_pairs self))
  ∧ ∀ c, c ∈ one_direction self
         ↔ ∃ p, p ∈ same_day_pairs self ∧ String.ltb p.1 p.2 = true
                ∧ (c = at_least_one_direction p ∨ c = at_most_one_direction p).

(** The fail-fast behaviour the claim asks for. *)
Definition fails_fast (self : Optimizer) : Prop :=
  ∀ engine,
    (∃ err, run engine (optimize self) = Raised err)
    ∧ engine_calls engine (optimize self) = [].

(** The fail-fast behaviour the claim asks for, on the call with its
    exceptions. *)
Definition call_fails_fast (self : Optimizer) (buffer : option Z) : Prop :=
  ∀ solve,
    (∃ err, run_call solve (optimize_call self buffer) = Raised err)
    ∧ calls_of solve (optimize_call self buffer) = [].

(** ** Concrete catalogues *)

Definition entry (ev d s e : Z) (l : string) : EventInstanceEntry :=
  {| event := ev; day := d; start := s; end_ := e; loc := l |}.

(** [create_sample_data]: [t(day, hh) = day * 24 * 60 + hh * 60] and every
    occurrence lasts 60 minutes. *)
Definition t (d hh : Z) : Z := d * 24 * 60 + hh * 60.

Definition sample_occs : list (string * EventInstanceEntry) :=
  [ ("E1_Mon_9", entry 1 0 (t 0 9) (t 0 9 + 60) "A");
    ("E1_Mon_17", entry 1 0 (t 0 17) (t 0 17 + 60) "A");
    ("E1_Wed_16", entry 1 2 (t 2 16) (t 2 16 + 60) "A");
    ("E2_Mon_10", entry 2 0 (t 0 10) (t 0 10 + 60) "B");
    ("E2_Tue_10", entry 2 1 (t 1 10) (t 1 10 + 60) "B");
    ("E3_Tue_12", entry 3 1 (t 1 12) (t 1 12 + 60) "C");
    ("E3_Thu_12", entry 3 3 (t 3 12) (t 3 12 + 60) "C") ].

Definition sample_travel : gmap (string * string) Z :=
  list_to_map
    [ (("A", "A"), 10); (("A", "B"), 25); (("A", "C"), 40);
      (("B", "A"), 25); (("B", "B"), 10); (("B", "C"), 20);
      (("C", "A"), 40); (("C", "B"), 20); (("C", "C"), 10) ].

(** [Optimizer(occurrences, travel_distances)] as [main] builds it. *)
Definition sample_self : Optimizer := init sample_occs sample_travel None.

(** A valuation selecting Monday 17:00, Monday 10:00 and Tuesday 12:00. *)
Definition sample_val (v : LpVariable) : Q :=
  match v with
  | x_ "E1_Mon_17" | x_ "E2_Mon_10" | x_ "E3_Tue_12" => 1
  | u_ 0 | u_ 1 => 1
  | y_ "E2_Mon_10" "E1_Mon_17" => 1
  | _ => 0
  end.

Definition sample_out : EngineResult :=
  {| value := sample_val; lp_status := Optimal |}.

(** Two visits on one day: 09:00-10:00 at A and 12:00-13:00 at B. *)
Definition two_occs : list (string * EventInstanceEntry) :=
  [("a", entry 1 0 540 600 "A"); ("b", entry 2 0 720 780 "B")].

Definition two_travel : gmap (string * string) Z :=
  <[("A", "B") := 25]> (<[("B", "A") := 25]> ∅).

Definition two_self : Optimizer := init two_occs two_travel None.

Definition two_val (v : LpVariable) : Q :=
  match v with
  | x_ _ => 1
  | u_ _ => 1
  | y_ "a" "b" => 1
  | y_ _ _ => 0
  end.

Definition two_out : EngineResult := {| value := two_val; lp_status := Optimal |}.

(** An occurrence that ends before it starts ("b") lets the cheapest
    orderings form a cycle a, b, c, a. *)
Definition cyc_occs : list (string * EventInstanceEntry) :=
  [ ("a", entry 1 0 5 10 "A"); ("b", entry 2 0 10 0 "A");
    ("c", entry 3 0 3 4 "A") ].

Definition cyc_self : Optimizer := init cyc_occs ∅ (Some 0).

Definition cyc_val (v : LpVariable) : Q :=
  match v with
  | x_ _ => 1
  | u_ _ => 1
  | y_ "a" "b" => 1
  | y_ "b" "c" => 1
  | y_ "c" "a" => 1
  | y_ _ _ => 0
  end.

Definition cyc_out : EngineResult := {| value := cyc_val; lp_status := Optimal |}.

(** Scenario A of the specification: two events whose only occurrences
    share day, place and time window. *)
Definition clash_occs : list (string * EventInstanceEntry) :=
  [("a", entry 1 0 540 600 "A"); ("b", entry 2 0 540 600 "A")].

Definition clash_self : Optimizer := init clash_occs ∅ (Some 60).

(** The values of the linear relaxation, left behind with status
    [Infeasible]. *)
Definition clash_relaxed (v : LpVariable) : Q :=
  match v with
  | x_ _ => 1
  | u_ _ => 1
  | y_ _ _ => 1 # 2
  end.

Definition clash_out : EngineResult :=
  {| value := clash_relaxed; lp_status := Infeasible |}.

(** Values under status [Infeasible] in which the day flag is off. *)
Definition clash_flag_off (v : LpVariable) : Q :=
  match v with
  | x_ _ => 1
  | _ => 0
  end.

Definition clash_out_flag_off : EngineResult :=
  {| value := clash_flag_off; lp_status := Infeasible |}.

(** A late visit 23:00-23:30 and an early visit 00:00-00:30 on one day,
    default buffer, no travel entries. *)
Definition late_occs : list (string * EventInstanceEntry) :=
  [("late", entry 1 0 1380 1410 "A"); ("early", entry 2 0 0 30 "A")].

Definition late_self : Optimizer := init late_occs ∅ None.

(** ** Tactics for concrete problems *)

Ltac split_Forall :=
  repeat match goal with
  | H : Forall _ (_ :: _) |- _ =>
      let H1 := fresh "Hc" in apply Forall_cons in H as [H1 H]
  | H : Forall _ [] |- _ => clear H
  end.

Ltac build_Forall := repeat (apply Forall_cons; split); try apply Forall_nil.

(** Reads a feasibility hypothesis of a concrete problem as inequalities. *)
Ltac read_feasible H :=
  destruct H as [?Hbin ?Hcon];
  cbn [variables constraints objective] in *;
  split_Forall; unfold holds, binary in *; cbn in *; unfold inject_Z in *.

Ltac split_binary :=
  repeat match goal with
  | H : (_ (y_ _ _) == 0 ∨ _)%Q |- _ => destruct H
  end.

(** ** The rest of the optimizer module *)

(** [Optimizer.__t]: day and time to absolute minutes from week start
    ([mm] defaults to 0 in the source). *)
Definition Optimizer_t (self : Optimizer) (d hh mm : Z) : Z :=
  d * 24 * H self + hh * H self + mm.

(** The gap requirement of the ordered pair (k, m): the end of [k] plus
    travel plus buffer. *)
Definition earliest_next (self : Optimizer) (k m : string) : Z :=
  end_ (occ self k) + travel_time self k m + buffer_minutes self.

(** One call of [print]: the arguments it is given, before formatting. *)
Inductive Printed :=
| PrintChosen (chosen_keys : list string)
| PrintSchedule (sched : gmap Z (list string))
| PrintDaysUsed (n : nat)
| PrintDay (d : Z)
| PrintOccurrence (k : string) (ev start_min end_min : Z) (place : string).

(** The inner loop of [print_schedule]: one line per key of a day, stopping
    at the first key that [self.occurrences] does not hold ([KeyError]).
    The boolean tells whether the loop ran to its end. *)
Fixpoint print_occurrences (self : Optimizer) (ks : list string)
  : list Printed * bool :=
  match ks with
  | [] => ([], true)
  | k :: ks' =>
      match getitem (occurrences self) k with
      | None => ([], false)
      | Some o =>
          let '(lines, ok) := print_occurrences self ks' in
          (PrintOccurrence k (event o) (start o) (end_ o) (loc o) :: lines, ok)
      end
  end.

(** The outer loop [for d in sorted(schedule)]. *)
Fixpoint print_days (self : Optimizer) (sched : gmap Z (list string))
    (ds : list Z) : list Printed * bool :=
  match ds with
  | [] => ([], true)
  | d :: ds' =>
      let '(lines, ok) := print_occurrences self (default [] (sched !! d)) in
      if ok then
        let '(more, ok') := print_days self sched ds' in
        (PrintDay d :: lines ++ more, ok')
      else (PrintDay d :: lines, false)
  end.

(** [Optimizer.print_schedule]: everything printed, and whether the call
    returned (true) or stopped on a [KeyError] (false). *)
Definition print_schedule (self : Optimizer) (result : Result)
  : list Printed * bool :=
  let '(lines, ok) :=
    print_days self (schedule result)
               (merge_sort Z.le (map_to_list (schedule result)).*1) in
  (PrintChosen (chosen_occurrences result)
   :: PrintSchedule (schedule result)
   :: PrintDaysUsed (days_used result)
   :: lines, ok).

(** The keys of the occurrence lines, in printing order. *)
Definition printed_keys (lines : list Printed) : list string :=
  omap (λ line, if line is PrintOccurrence k _ _ _ _ then Some k else None) lines.

(** The days of the day headers, in printing order. *)
Definition printed_days (lines : list Printed) : list Z :=
  omap (λ line, if line is PrintDay d then Some d else None) lines.

(** A schedule naming the key "x", which [two_occs] does not hold. *)
Definition stray_result : Result :=
  {| schedule := {[ 0 := ["a"; "x"] ]}; days_used := 1%nat;
     chosen_occurrences := ["a"; "x"]; status := Optimal |}.

(** ** The request handler (src/main.py) *)

(** [key.split(',')]: the pieces between the commas, at least one. *)
Fixpoint split_comma (s : string) : list string :=
  match s with
  | EmptyString => [EmptyString]
  | String c s' =>
      if decide (c = ","%char) then EmptyString :: split_comma s'
      else match split_comma s' with
           | piece :: pieces => String c piece :: pieces
           | [] => [String c EmptyString]
           end
  end.

(** The number of commas of a string. *)
Fixpoint commas (s : string) : nat :=
  match s with
  | EmptyString => 0
  | String c s' => if decide (c = ","%char) then S (commas s') else commas s'
  end.

(** [from_loc, to_loc = key.split(',')]: the unpacking needs exactly two
    pieces and raises [ValueError] otherwise. *)
Definition travel_key (key : string) : option (string * string) :=
  match split_comma key with
  | [from_loc; to_loc] => Some (from_loc, to_loc)
  | _ => None
  end.

(** One round of the loop over [request.travel_distances.items()];
    [None] stands for the [ValueError] of a key that does not unpack. *)
Definition travel_step (acc : option (gmap (string * string) Z))
    (item : string * Z) : option (gmap (string * string) Z) :=
  travel ← acc;
  pair_key ← travel_key item.1;
  Some (<[pair_key := item.2]> travel).

(** The loop over [request.travel_distances.items()]. *)
Definition convert_travel (items : list (string * Z))
  : option (gmap (string * string) Z) :=
  foldl travel_step (Some ∅) items.

(** [d[k] = v] on an insertion-ordered dictionary: an existing key keeps
    its place, a new key goes to the end. *)
Fixpoint setitem {V} (d : list (string * V)) (k : string) (v : V)
  : list (string * V) :=
  match d with
  | [] => [(k, v)]
  | (k', v') :: d' =>
      if decide (k' = k) then (k, v) :: d' else (k', v') :: setitem d' k v
  end.

(** [class OptimizationRequest(BaseModel)]; a JSON null for
    [buffer_minutes] is [None]. *)
Record OptimizationRequest (Any : Type) := {
  req_occurrences : list (string * gmap string Any);
  req_travel_distances : list (string * Z);
  req_buffer_minutes : option Z
}.
Arguments req_occurrences {Any} _.
Arguments req_travel_distances {Any} _.
Arguments req_buffer_minutes {Any} _.

(** [class OptimizationResponse(BaseModel)] *)
Record OptimizationResponse := {
  resp_schedule : gmap Z (list string);
  resp_days_used : nat;
  resp_chosen_occurrences : list string;
  resp_status : LpStatus;
  resp_timestamp : string
}.

(** What the route answers: the response model, or the HTTPException with
    status code 500 (its detail text is left out). *)
Inductive HttpOutcome :=
| Ok200 (response : OptimizationResponse)
| Error500.

Section Handler.
Context {Any : Type}.

(** Pydantic's validation of an [int] field and of a [str] field of
    [EventInstanceEntry]; [None] stands for [ValidationError]. *)
Variable as_int : Any → option Z.
Variable as_str : Any → option string.

(** [datetime.utcnow().isoformat()] *)
Variable now : string.

(** [EventInstanceEntry(event=occurrence_data["event"], ...)]: a missing
    field is a [KeyError], an unacceptable value a [ValidationError]. *)
Definition build_entry (occurrence_data : gmap string Any)
  : option EventInstanceEntry :=
  ev ← occurrence_data !! "event";
  dy ← occurrence_data !! "day";
  st ← occurrence_data !! "start";
  en ← occurrence_data !! "end";
  lc ← occurrence_data !! "loc";
  ev' ← as_int ev;
  dy' ← as_int dy;
  st' ← as_int st;
  en' ← as_int en;
  lc' ← as_str lc;
  Some {| event := ev'; day := dy'; start := st'; end_ := en'; loc := lc' |}.

(** One round of the loop over [request.occurrences.items()]; [None]
    stands for the exception of an entry that cannot be built. *)
Definition occurrence_step (acc : option (list (string * EventInstanceEntry)))
    (item : string * gmap string Any)
  : option (list (string * EventInstanceEntry)) :=
  occs ← acc;
  e ← build_entry item.2;
  Some (setitem occs item.1 e).

(** The loop over [request.occurrences.items()]. *)
Definition convert_occurrences (items : list (string * gmap string Any))
  : option (list (string * EventInstanceEntry)) :=
  foldl occurrence_step (Some []) items.

Definition respond (r : Result) : OptimizationResponse :=
  {| resp_schedule := schedule r;
     resp_days_used := days_used r;
     resp_chosen_occurrences := chosen_occurrences r;
     resp_status := status r;
     resp_timestamp := now |}.

(** [try: ... return OptimizationResponse(...) except Exception: raise
    HTTPException(500)] around the optimizer call: every exception,
    whether of the optimizer or of [prob.solve], becomes the answer 500. *)
Fixpoint answer (body : Call Result) : Call HttpOutcome :=
  match body with
  | Ends (Returned r) => Ends (Returned (Ok200 (respond r)))
  | Ends (Raised _) => Ends (Returned Error500)
  | Engine p k => Engine p (λ solved, answer (k solved))
  end.

(** The route [POST /optimize]; [request.buffer_minutes] is handed to the
    optimizer as it is, an integer or [None]. *)
Definition optimize_schedule (request : OptimizationRequest Any)
  : Call HttpOutcome :=
  match convert_occurrences (req_occurrences request) with
  | None => Ends (Returned Error500)
  | Some occs =>
      match convert_travel (req_travel_distances request) with
      | None => Ends (Returned Error500)
      | Some travel =>
          answer (optimize_call (init occs travel (req_buffer_minutes request))
                                (req_buffer_minutes request))
      end
  end.
End Handler.

(** ** More concrete inputs *)

(** A validation that accepts integers for [int] fields and strings for
    [str] fields, for the examples. *)
Definition strict_int (v : Z + string) : option Z :=
  match v with inl z => Some z | inr _ => None end.

Definition strict_str (v : Z + string) : option string :=
  match v with inl _ => None | inr s => Some s end.

Definition field_map (ev dy st en : Z) (lc : string) : gmap string (Z + string) :=
  list_to_map [("event", inl ev); ("day", inl dy); ("start", inl st);
               ("end", inl en); ("loc", inr lc)].

(** The two visits of [two_occs] as a request without buffer (JSON null). *)
Definition two_request : OptimizationRequest (Z + string) :=
  {| req_occurrences :=
       [("a", field_map 1 0 540 600 "A"); ("b", field_map 2 0 720 780 "B")];
     req_travel_distances := [("A,B", 25); ("B,A", 25)];
     req_buffer_minutes := None |}.

Definition two_request_60 : OptimizationRequest (Z + string) :=
  {| req_occurrences := req_occurrences two_request;
     req_travel_distances := req_travel_distances two_request;
     req_buffer_minutes := Some 60 |}.

(** A morning visit, and a second event offered late on the same day or
    early on the next day. *)
Definition far_occs : list (string * EventInstanceEntry) :=
  [ ("a", entry 1 0 0 10 "A"); ("b", entry 2 0 1200 1210 "A");
    ("b2", entry 2 1 1440 1450 "A") ].

Definition far_self : Optimizer := init far_occs ∅ None.

(** Both events on day 0. *)
Definition far_one_day (v : LpVariable) : Q :=
  match v with
  | x_ "a" | x_ "b" => 1
  | u_ 0 => 1
  | y_ "a" "b" => 1
  | _ => 0
  end.

(** The second event on day 1. *)
Definition far_two_days (v : LpVariable) : Q :=
  match v with
  | x_ "a" | x_ "b2" => 1
  | u_ _ => 1
  | _ => 0
  end.

(** * Facts about the library functions *)

Section ListFacts.
Context {A : Type}.

Lemma elem_of_insert_uniq z x l : x ∈ insert_uniq z l ↔ x = z ∨ x ∈ l.
Proof.
  induction l as [|z' l IH]; simpl.
  - set_solver.
  - repeat case_decide; subst; rewrite ?elem_of_cons, ?IH; intuition (subst; auto).
Qed.

Lemma elem_of_sorted_set x l : x ∈ sorted_set l ↔ x ∈ l.
Proof.
  induction l as [|z l IH]; simpl; [done|].
  rewrite elem_of_insert_uniq, IH, elem_of_cons. done.
Qed.

Lemma insert_uniq_increasing z l :
  StronglySorted Z.lt l → StronglySorted Z.lt (insert_uniq z l).
Proof.
  induction 1 as [|z' l Hl IH Hall]; simpl.
  - repeat constructor.
  - repeat case_decide.
    + constructor; [by constructor|].
      constructor; [done|]. eapply Forall_impl; [exact Hall|]. simpl. lia.
    + by constructor.
    + constructor; [done|]. apply Forall_forall. intros x Hx.
      apply elem_of_insert_uniq in Hx as [->|Hx]; [lia|].
      by eapply Forall_forall in Hall.
Qed.

Lemma sorted_set_increasing l : StronglySorted Z.lt (sorted_set l).
Proof.
  induction l; simpl; [constructor|]. by apply insert_uniq_increasing.
Qed.

Lemma NoDup_sorted_set l : NoDup (sorted_set l).
Proof.
  generalize (sorted_set_increasing l). induction 1 as [|z l' Hl IH Hall].
  - constructor.
  - constructor; [|done]. intros Hin.
    eapply Forall_forall in Hall; [|exact Hin]. lia.
Qed.

Lemma elem_of_permutations2_from (seen rest : list A) a b :
  (a, b) ∈ permutations2_from seen rest → a ∈ rest ∧ b ∈ seen ++ rest.
Proof.
  revert seen. induction rest as [|c rest IH]; intros seen; simpl.
  - by intros ?%elem_of_nil.
  - rewrite elem_of_app, list_elem_of_fmap. intros [(b' & [= -> ->] & Hb)|Hin].
    + set_solver.
    + apply IH in Hin. set_solver.
Qed.

Lemma elem_of_permutations2_from_NoDup (seen rest : list A) a b :
  NoDup (seen ++ rest) →
  (a, b) ∈ permutations2_from seen rest ↔ a ∈ rest ∧ b ∈ seen ++ rest ∧ a ≠ b.
Proof.
  revert seen. induction rest as [|c rest IH]; intros seen Hnd; simpl.
  - set_solver.
  - assert (Hnd' : NoDup ((seen ++ [c]) ++ rest)) by (rewrite <-app_assoc; exact Hnd).
    rewrite elem_of_app, list_elem_of_fmap, (IH _ Hnd').
    apply NoDup_app in Hnd as (Hs & Hdisj & Hcr).
    apply NoDup_cons in Hcr as [Hc Hr].
    split.
    + intros [(b' & [= -> ->] & Hb)|(Ha & Hb & Hne)].
      * split; [set_solver|]. split; [set_solver|].
        intros ->. apply elem_of_app in Hb as [Hb|Hb]; [|done].
        apply (Hdisj _ Hb). set_solver.
      * set_solver.
    + intros (Ha & Hb & Hne). apply elem_of_cons in Ha as [->|Ha].
      * left. exists b. split; [done|]. set_solver.
      * right. set_solver.
Qed.

Lemma elem_of_permutations2 (l : list A) a b :
  NoDup l → (a, b) ∈ permutations2 l ↔ a ∈ l ∧ b ∈ l ∧ a ≠ b.
Proof. intros Hnd. unfold permutations2. by rewrite elem_of_permutations2_from_NoDup. Qed.

Lemma NoDup_permutations2_from (seen rest : list A) :
  NoDup (seen ++ rest) → NoDup (permutations2_from seen rest).
Proof.
  revert seen. induction rest as [|c rest IH]; intros seen Hnd; simpl.
  - constructor.
  - assert (Hnd' : NoDup ((seen ++ [c]) ++ rest)) by (rewrite <-app_assoc; exact Hnd).
    apply NoDup_app. split; [|split].
    + apply NoDup_fmap_2; [intros ?? [=]; done|].
      apply NoDup_app in Hnd as (Hs & Hdisj & Hcr).
      apply NoDup_cons in Hcr as [Hc Hr].
      apply NoDup_app. set_solver.
    + intros [a b] (b' & [= -> ->] & Hb)%list_elem_of_fmap Hin.
      apply elem_of_permutations2_from in Hin as [Ha _].
      apply NoDup_app in Hnd as (_ & _ & Hcr).
      apply NoDup_cons in Hcr as [Hc _]. done.
    + by apply IH.
Qed.

Lemma NoDup_permutations2 (l : list A) : NoDup l → NoDup (permutations2 l).
Proof. intros. by apply NoDup_permutations2_from. Qed.
End ListFacts.

Section SortFacts.
Context {A : Type} (key : A → nat).

Lemma insert_by_perm a l : insert_by key a l ≡ₚ a :: l.
Proof.
  induction l as [|b l IH]; simpl; [done|].
  case_decide; [done|]. rewrite IH. apply Permutation_swap.
Qed.

Lemma sorted_perm l : sorted l key ≡ₚ l.
Proof.
  induction l as [|a l IH]; simpl; [done|].
  by rewrite insert_by_perm, IH.
Qed.

Lemma insert_by_sorted a l :
  StronglySorted (key_le key) l → StronglySorted (key_le key) (insert_by key a l).
Proof.
  induction 1 as [|b l Hl IH Hall]; simpl.
  - repeat constructor.
  - case_decide as Hab.
    + constructor; [by constructor|].
      constructor; [done|]. eapply Forall_impl; [exact Hall|].
      unfold key_le in *. simpl. lia.
    + constructor; [done|]. rewrite insert_by_perm.
      constructor; [unfold key_le; lia|done].
Qed.

Lemma sorted_sorted l : StronglySorted (key_le key) (sorted l key).
Proof. induction l; simpl; [constructor|]. by apply insert_by_sorted. Qed.

Lemma insert_by_stable c a l :
  filter (λ b, key b = c) (insert_by key a l)
  = filter (λ b, key b = c) (a :: l).
Proof.
  induction l as [|b l IH]; simpl; [done|].
  case_decide as Hab; [done|].
  rewrite !filter_cons, IH, filter_cons.
  repeat case_decide; try done; lia.
Qed.

Lemma sorted_stable c l :
  filter (λ b, key b = c) (sorted l key) = filter (λ b, key b = c) l.
Proof.
  induction l as [|a l IH]; simpl; [done|].
  by rewrite insert_by_stable, !filter_cons, IH.
Qed.

Lemma StronglySorted_lookup (R : relation A) l i j a b :
  StronglySorted R l → l !! i = Some a → l !! j = Some b → (i < j)%nat → R a b.
Proof.
  intros Hs. revert i j. induction Hs as [|x l Hl IH Hall]; intros i j Hi Hj Hij.
  - done.
  - destruct j as [|j]; [lia|]. destruct i as [|i]; simpl in *.
    + injection Hi as ->. eapply Forall_forall in Hall; [exact Hall|].
      by eapply list_elem_of_lookup_2.
    + eapply IH; eauto. lia.
Qed.
End SortFacts.

Section CountFacts.
Lemma foldl_count (cond : string → string → bool) pairs (bc0 : gmap string nat) m :
  foldl (λ bc p, if cond p.1 p.2 then <[p.2 := S (bc !!! p.2)]> bc else bc)
        bc0 pairs !!! m
  = (bc0 !!! m
     + length (filter (λ p, p.2 = m ∧ cond p.1 p.2 = true) pairs))%nat.
Proof.
  revert bc0. induction pairs as [|p pairs IH]; intros bc0; simpl.
  - lia.
  - rewrite IH, filter_cons. destruct (cond p.1 p.2) eqn:Hc.
    + destruct (decide (p.2 = m)) as [->|Hne].
      * rewrite lookup_total_insert_eq, decide_True by done. simpl. lia.
      * rewrite lookup_total_insert_ne, decide_False by tauto. done.
    + rewrite decide_False by (intros [_ ?]; done). done.
Qed.

Lemma zero_dict_lookup (l : list string) m :
  (list_to_map ((λ k, (k, 0%nat)) <$> l) : gmap string nat) !!! m = 0%nat.
Proof.
  rewrite lookup_total_alt.
  destruct (list_to_map _ !! m) as [n|] eqn:Hm; simpl; [|done].
  apply elem_of_list_to_map_2, list_elem_of_fmap in Hm as (k & [= _ ->] & _).
  done.
Qed.

Lemma permutations2_count (cond : string → string → bool) (l : list string) m :
  NoDup l → m ∈ l →
  length (filter (λ p, p.2 = m ∧ cond p.1 p.2 = true) (permutations2 l))
  = length (filter (λ k, k ≠ m ∧ cond k m = true) l).
Proof.
  intros Hnd Hm.
  rewrite <-(length_fmap (λ k, (k, m)) (filter _ l)).
  apply Permutation_length, NoDup_Permutation.
  - by apply NoDup_filter, NoDup_permutations2.
  - apply NoDup_fmap_2; [intros ?? [=]; done|]. by apply NoDup_filter.
  - intros [a b]. rewrite list_elem_of_filter, elem_of_permutations2 by done.
    rewrite list_elem_of_fmap. simpl. split.
    + intros ([-> Hc] & Ha & _ & Hne). exists a.
      split; [done|]. by apply list_elem_of_filter.
    + intros (k & [= -> ->] & [Hne Hc]%list_elem_of_filter). tauto.
Qed.
End CountFacts.

(** * Facts about the optimizer object *)

Lemma getitem_key occs k :
  k ∈ occs.*1 → ∃ e, getitem occs k = Some e ∧ (k, e) ∈ occs.
Proof.
  induction occs as [|[k' e'] occs IH]; simpl.
  - by intros ?%elem_of_nil.
  - intros Hin. case_decide as Hk.
    + subst. exists e'. split; [done|]. apply elem_of_cons. by left.
    + apply elem_of_cons in Hin as [->|Hin]; [done|].
      destruct (IH Hin) as (e & He & Hin'). exists e. split; [done|].
      apply elem_of_cons. by right.
Qed.

Lemma getitem_NoDup occs k e :
  NoDup occs.*1 → (k, e) ∈ occs → getitem occs k = Some e.
Proof.
  induction occs as [|[k' e'] occs IH]; simpl.
  - by intros _ ?%elem_of_nil.
  - intros [Hk Hnd]%NoDup_cons [[= -> ->]|Hin]%elem_of_cons.
    + by rewrite decide_True.
    + rewrite decide_False; [by apply IH|].
      intros ->. apply Hk. apply list_elem_of_fmap. by exists (k, e).
Qed.

Lemma occ_of_key occs k :
  k ∈ occs.*1 → (k, occ_in occs k) ∈ occs.
Proof.
  intros (e & He & Hin)%getitem_key. unfold occ_in. by rewrite He.
Qed.

Section InitFacts.
Variable occs : list (string * EventInstanceEntry).
Variable travel : gmap (string * string) Z.
Variable buffer_arg : option Z.
Let self := init occs travel buffer_arg.

Lemma occ_elem k : k ∈ K self → (k, occ self k) ∈ occs.
Proof. apply occ_of_key. Qed.

Lemma occ_NoDup k e : NoDup occs.*1 → (k, e) ∈ occs → occ self k = e.
Proof.
  intros Hnd Hin. unfold occ, occ_in. simpl.
  by rewrite (getitem_NoDup _ _ _ Hnd Hin).
Qed.

Lemma elem_of_K k e : (k, e) ∈ occs → k ∈ K self.
Proof. intros Hin. apply list_elem_of_fmap. by exists (k, e). Qed.

Lemma elem_of_events i : i ∈ events self ↔ ∃ k e, (k, e) ∈ occs ∧ event e = i.
Proof.
  simpl. rewrite elem_of_sorted_set, list_elem_of_fmap. split.
  - intros (e & -> & ([k e'] & -> & Hin)%list_elem_of_fmap). eauto.
  - intros (k & e & Hin & <-). exists e. split; [done|].
    apply list_elem_of_fmap. by exists (k, e).
Qed.

Lemma elem_of_days d : d ∈ days self ↔ ∃ k e, (k, e) ∈ occs ∧ day e = d.
Proof.
  simpl. rewrite elem_of_sorted_set, list_elem_of_fmap. split.
  - intros (e & -> & ([k e'] & -> & Hin)%list_elem_of_fmap). eauto.
  - intros (k & e & Hin & <-). exists e. split; [done|].
    apply list_elem_of_fmap. by exists (k, e).
Qed.

Lemma day_in_days k : k ∈ K self → day (occ self k) ∈ days self.
Proof. intros Hk. apply elem_of_days. exists k, (occ self k). split; [by apply occ_elem|done]. Qed.

Lemma event_in_events k : k ∈ K self → event (occ self k) ∈ events self.
Proof. intros Hk. apply elem_of_events. exists k, (occ self k). split; [by apply occ_elem|done]. Qed.

Lemma NoDup_days : NoDup (days self).
Proof. apply NoDup_sorted_set. Qed.

Lemma NoDup_events : NoDup (events self).
Proof. apply NoDup_sorted_set. Qed.

Lemma elem_of_same_day_pairs k m :
  NoDup occs.*1 →
  (k, m) ∈ same_day_pairs self
  ↔ k ∈ K self ∧ m ∈ K self ∧ k ≠ m ∧ day (occ self k) = day (occ self m).
Proof.
  intros Hnd. simpl. rewrite list_elem_of_filter, elem_of_permutations2 by done.
  simpl. unfold occ. simpl. tauto.
Qed.

Lemma same_day_pairs_sym k m :
  NoDup occs.*1 → (k, m) ∈ same_day_pairs self → (m, k) ∈ same_day_pairs self.
Proof.
  intros Hnd. rewrite !elem_of_same_day_pairs by done.
  intros (? & ? & ? & ?). repeat split; done.
Qed.
End InitFacts.

Lemma string_lt_total (k m : string) :
  k ≠ m → (String.ltb k m = true ∧ String.ltb m k = false)
          ∨ (String.ltb m k = true ∧ String.ltb k m = false).
Proof.
  intros Hne. unfold String.ltb. rewrite (String.compare_antisym m k).
  destruct (String.compare k m) eqn:Hc; simpl; auto.
  by apply String.compare_eq_iff in Hc.
Qed.

(** * Evaluating expressions *)

Lemma gt_half_spec q : gt_half q = true ↔ (1 # 2 < q)%Q.
Proof.
  unfold gt_half. rewrite negb_true_iff, <-not_true_iff_false, Qle_bool_iff.
  split; [apply Qnot_le_lt|apply Qlt_not_le].
Qed.

Lemma gt_half_one q : (q == 1)%Q → gt_half q = true.
Proof. intros Hq. apply gt_half_spec. lra. Qed.

Lemma gt_half_zero q : (q == 0)%Q → gt_half q = false.
Proof.
  intros Hq. apply not_true_iff_false. rewrite gt_half_spec. lra.
Qed.

Lemma binary_gt_half q : binary q → gt_half q = true → (q == 1)%Q.
Proof.
  intros [Hq|Hq] Hg; [|done]. by rewrite gt_half_zero in Hg.
Qed.

Lemma binary_not_gt_half q : binary q → gt_half q = false → (q == 0)%Q.
Proof.
  intros [Hq|Hq] Hg; [done|]. by rewrite gt_half_one in Hg.
Qed.

Lemma binary_bounds q : binary q → (0 <= q <= 1)%Q.
Proof. intros [Hq|Hq]; lra. Qed.

Section EvalFacts.
Context {A : Type}.

Lemma eval_lpSum_ext val val' (f : A → LpAffineExpression) l :
  (∀ a, a ∈ l → (eval val' (f a) == eval val (f a))%Q) →
  (eval val' (lpSum (f <$> l)) == eval val (lpSum (f <$> l)))%Q.
Proof.
  induction l as [|a l IH]; intros Hext; simpl; [reflexivity|].
  rewrite Hext by (apply elem_of_cons; by left). rewrite IH; [reflexivity|].
  intros a' Ha'. apply Hext. apply elem_of_cons. by right.
Qed.

Lemma eval_lpSum_nonneg val (f : A → LpAffineExpression) l :
  (∀ a, a ∈ l → (0 <= eval val (f a))%Q) →
  (0 <= eval val (lpSum (f <$> l)))%Q.
Proof.
  induction l as [|a l IH]; intros Hext; simpl; [done|].
  assert (0 <= eval val (f a))%Q by (apply Hext, elem_of_cons; by left).
  assert (0 <= eval val (lpSum (f <$> l)))%Q.
  { apply IH. intros a' Ha'. apply Hext. apply elem_of_cons. by right. }
  change (0 <= eval val (f a) + eval val (lpSum (f <$> l)))%Q. lra.
Qed.
End EvalFacts.

(** The sum of 0/1 values counts the values above the threshold. *)
Lemma eval_lpSum_binary val (l : list string) :
  Forall (λ k, binary (val (x_ k))) l →
  (eval val (lpSum (LpVar ∘ x_ <$> l))
   == inject_Z (Z.of_nat (length (filter (λ k, gt_half (val (x_ k)) = true) l))))%Q.
Proof.
  induction 1 as [|k l Hk Hl IH]; simpl; [reflexivity|].
  rewrite IH, filter_cons. destruct Hk as [Hk|Hk].
  - rewrite decide_False by (rewrite gt_half_zero by done; done). rewrite Hk. lra.
  - rewrite decide_True by (by apply gt_half_one). rewrite Hk. simpl length.
    rewrite Nat2Z.inj_succ, <-Z.add_1_l, inject_Z_plus. reflexivity.
Qed.

Lemma binary_sum_one val (l : list string) :
  Forall (λ k, binary (val (x_ k))) l →
  (eval val (lpSum (LpVar ∘ x_ <$> l)) == 1)%Q →
  ∃ k, filter (λ k, gt_half (val (x_ k)) = true) l = [k].
Proof.
  intros Hb Hsum. rewrite (eval_lpSum_binary _ _ Hb) in Hsum.
  change 1%Q with (inject_Z 1) in Hsum. apply (proj1 (inject_Z_injective _ _)) in Hsum.
  destruct (filter _ l) as [|k [|k' l']] eqn:Hf; [simpl in Hsum; lia|by exists k|].
  rewrite !length_cons in Hsum. lia.
Qed.

Lemma feasible_Sat self val : feasible (prob self) val ↔ Sat self val.
Proof.
  unfold feasible, prob, coverage, day_activation, linkage, one_direction,
    time_feasibility. cbn [variables constraints].
  rewrite !Forall_app, !Forall_fmap, !Forall_bind, !Forall_forall.
  split.
  - intros ((Hx & Hu & Hy) & Hc & Hd & Hl & Ho & Ht). split.
    + exact Hx.
    + exact Hu.
    + exact Hy.
    + intros i Hi. apply (Hc i Hi).
    + intros d k Hd' Hk Hday. specialize (Hd d Hd'). unfold compose in Hd.
      rewrite Forall_fmap, Forall_forall in Hd. apply (Hd k).
      by apply list_elem_of_filter.
    + intros p Hp. specialize (Hl p Hp).
      apply Forall_cons in Hl as [H1 [H2 _]%Forall_cons]. split; [exact H1|exact H2].
    + intros p Hp. specialize (Ho p Hp).
      apply Forall_cons in Ho as [H1 [H2 _]%Forall_cons]. split; [exact H1|exact H2].
    + intros p Hp. apply (Ht p Hp).
  - intros [Hx Hu Hy Hc Hd Hl Ho Ht]. repeat split.
    + exact Hx.
    + exact Hu.
    + exact Hy.
    + intros i Hi. apply (Hc i Hi).
    + intros d Hd'. unfold compose. rewrite Forall_fmap, Forall_forall.
      intros k [Hday Hk]%list_elem_of_filter. by apply Hd.
    + intros p Hp. destruct (Hl p Hp) as [H1 H2].
      repeat constructor; [exact H1|exact H2].
    + intros p Hp. destruct (Ho p Hp) as [H1 H2].
      repeat constructor; [exact H1|exact H2].
    + intros p Hp. apply (Ht p Hp).
Qed.

(** * Facts about the extraction *)

Lemma foldl_schedule_lookup (f : Z → list string) l (s0 : gmap Z (list string)) d :
  foldl (λ sched d, if f d is [] then sched else <[d := f d]> sched) s0 l !! d
  = if decide (d ∈ l ∧ f d ≠ []) then Some (f d) else s0 !! d.
Proof.
  revert s0. induction l as [|a l IH]; intros s0; cbn [foldl].
  - rewrite decide_False; [done|]. intros [?%elem_of_nil _]. done.
  - rewrite IH. destruct (decide (d ∈ l ∧ f d ≠ [])) as [[Hd Hf]|Hn].
    + rewrite decide_True; [done|]. split; [|done]. apply elem_of_cons. by right.
    + destruct (decide (a = d)) as [->|Hne].
      * destruct (f d) as [|k ks] eqn:Hfd.
        -- rewrite decide_False; [done|]. intros [_ ?]. done.
        -- rewrite lookup_insert_eq, decide_True; [done|].
           split; [|done]. apply elem_of_cons. by left.
      * rewrite decide_False.
        -- destruct (f a); [done|]. by rewrite lookup_insert_ne.
        -- intros [[->|Hd]%elem_of_cons Hf]; [done|]. apply Hn. done.
Qed.

Section ExtractFacts.
Variable self : Optimizer.
Variable out : EngineResult.

Lemma elem_of_chosen k :
  k ∈ chosen self out ↔ gt_half (value out (x_ k)) = true ∧ k ∈ K self.
Proof. unfold chosen. by rewrite list_elem_of_filter. Qed.

Lemma elem_of_todays d k :
  k ∈ todays self out d ↔ day (occ self k) = d ∧ k ∈ chosen self out.
Proof. unfold todays. by rewrite list_elem_of_filter. Qed.

Lemma NoDup_chosen : NoDup (K self) → NoDup (chosen self out).
Proof. apply NoDup_filter. Qed.

Lemma NoDup_todays d : NoDup (K self) → NoDup (todays self out d).
Proof. intros. by apply NoDup_filter, NoDup_chosen. Qed.

Lemma ordered_perm d : ordered self out d ≡ₚ todays self out d.
Proof. apply sorted_perm. Qed.

Lemma ordered_nil d : ordered self out d = [] ↔ todays self out d = [].
Proof.
  split; intros Hnil.
  - apply Permutation_nil_r. by rewrite <-Hnil, ordered_perm.
  - apply Permutation_nil_r. by rewrite <-Hnil, ordered_perm.
Qed.

Lemma schedule_lookup d :
  build_schedule self out !! d
  = if decide (d ∈ days self ∧ ordered self out d ≠ [])
    then Some (ordered self out d) else None.
Proof.
  unfold build_schedule. rewrite foldl_schedule_lookup, lookup_empty. done.
Qed.

(** The predecessor count read by the sort key. *)
Lemma before_count_spec d m :
  NoDup (K self) → m ∈ todays self out d →
  before_count self out d !!! m
  = length (filter (λ k, k ≠ m ∧ active self out k m = true) (todays self out d)).
Proof.
  intros Hnd Hm. unfold before_count.
  rewrite (foldl_count (active self out)), zero_dict_lookup.
  by rewrite permutations2_count by (by try apply NoDup_todays).
Qed.
End ExtractFacts.

Lemma filter_ext_elem {A} (P Q : A → Prop) `{!∀ x, Decision (P x)}
    `{!∀ x, Decision (Q x)} (l : list A) :
  (∀ x, x ∈ l → P x ↔ Q x) → filter P l = filter Q l.
Proof.
  induction l as [|a l IH]; intros Hext; [done|].
  rewrite !filter_cons, IH by (intros x Hx; apply Hext, elem_of_cons; by right).
  assert (P a ↔ Q a) by (apply Hext, elem_of_cons; by left).
  repeat case_decide; tauto.
Qed.

Lemma length_filter_strict {A} (P Q : A → Prop) `{!∀ x, Decision (P x)}
    `{!∀ x, Decision (Q x)} (l : list A) b :
  (∀ x, P x → Q x) → b ∈ l → Q b → ¬ P b →
  (length (filter P l) < length (filter Q l))%nat.
Proof.
  intros HPQ Hb HQ HnP.
  assert (filter P l = filter P (filter Q l)) as ->.
  { rewrite list_filter_filter. apply list_filter_iff. intros x. split; [|tauto].
    intros HP. split; [done|]. by apply HPQ. }
  apply (length_filter_lt _ _ b); [|done]. by apply list_elem_of_filter.
Qed.

Section Ordering.
Variable occs : list (string * EventInstanceEntry).
Variable travel : gmap (string * string) Z.
Variable buffer_arg : option Z.
Let self := init occs travel buffer_arg.
Variable out : EngineResult.
Hypothesis Hdict : NoDup occs.*1.
Hypothesis Hsat : Sat self (value out).

Lemma active_pair k m : active self out k m = true → (k, m) ∈ same_day_pairs self.
Proof. intros [Hp _]%andb_true_iff. by apply bool_decide_eq_true in Hp. Qed.

Lemma active_one k m : active self out k m = true → (value out (y_ k m) == 1)%Q.
Proof.
  intros Hact. pose proof (active_pair _ _ Hact) as Hp.
  apply andb_true_iff in Hact as [_ Hg].
  by apply binary_gt_half; [apply (sat_y _ _ Hsat (k, m) Hp)|].
Qed.

(** An active ordering variable enforces the real gap requirement. *)
Lemma active_gap k m :
  active self out k m = true →
  end_ (occ self k) + travel_time self k m + buffer_minutes self
  ≤ start (occ self m).
Proof.
  intros Hact. pose proof (active_one _ _ Hact) as Hy.
  pose proof (sat_time _ _ Hsat (k, m) (active_pair _ _ Hact)) as Ht.
  cbn [fst snd] in Ht. rewrite Hy in Ht. rewrite Zle_Qle. lra.
Qed.

Lemma chosen_one k : k ∈ chosen self out → (value out (x_ k) == 1)%Q.
Proof.
  intros [Hg Hk]%elem_of_chosen.
  by apply binary_gt_half; [apply (sat_x _ _ Hsat k Hk)|].
Qed.

(** Two different chosen occurrences of one day are ordered one way or
    the other. *)
Lemma active_total d k m :
  k ∈ todays self out d → m ∈ todays self out d → k ≠ m →
  active self out k m = true ∨ active self out m k = true.
Proof.
  intros [Hdk Hk]%elem_of_todays [Hdm Hm]%elem_of_todays Hne.
  pose proof (chosen_one _ Hk) as Hxk. pose proof (chosen_one _ Hm) as Hxm.
  apply elem_of_chosen in Hk as [_ Hk]. apply elem_of_chosen in Hm as [_ Hm].
  assert (Hkm : (k, m) ∈ same_day_pairs self).
  { apply elem_of_same_day_pairs; [done|]. repeat split; try done.
    exact (eq_trans Hdk (eq_sym Hdm)). }
  assert (Hmk : (m, k) ∈ same_day_pairs self) by by apply same_day_pairs_sym.
  pose proof (sat_y _ _ Hsat _ Hkm) as Hbkm.
  pose proof (sat_y _ _ Hsat _ Hmk) as Hbmk. simpl in Hbkm, Hbmk.
  assert (Hsum : (1 <= value out (y_ k m) + value out (y_ m k))%Q).
  { destruct (string_lt_total k m Hne) as [[Hlt _]|[Hlt _]].
    - assert (Hcan : (k, m) ∈ canonical_pairs self).
      { apply list_elem_of_filter. split; [|done]. split; [done|].
        exact (eq_trans Hdk (eq_sym Hdm)). }
      destruct (sat_direction _ _ Hsat _ Hcan) as [Hge _]. simpl in Hge. lra.
    - assert (Hcan : (m, k) ∈ canonical_pairs self).
      { apply list_elem_of_filter. split; [|done]. split; [done|].
        exact (eq_trans Hdm (eq_sym Hdk)). }
      destruct (sat_direction _ _ Hsat _ Hcan) as [Hge _]. simpl in Hge. lra. }
  unfold active. rewrite !bool_decide_eq_true_2 by done. simpl.
  destruct Hbkm as [Hz|Ho]; [|left; by apply gt_half_one].
  destruct Hbmk as [Hz'|Ho]; [lra|right; by apply gt_half_one].
Qed.

Hypothesis Hwf : well_formed occs travel (buffer_minutes self).

Lemma travel_time_nonneg k m : 0 ≤ travel_time self k m.
Proof.
  unfold travel_time. destruct (travel_distances self !! _) as [t|] eqn:Ht; simpl; [|done].
  destruct Hwf as (_ & Htr & _). by apply (Htr _ _ Ht).
Qed.

Lemma active_lt k m :
  active self out k m = true → start (occ self k) < start (occ self m).
Proof.
  intros Hact. pose proof (active_gap _ _ Hact) as Hgap.
  pose proof (travel_time_nonneg k m) as Htt.
  destruct Hwf as (Hse & _ & Hbuf).
  apply active_pair, elem_of_same_day_pairs in Hact as (Hk & _); [|done].
  apply occ_elem in Hk. rewrite Forall_forall in Hse.
  specialize (Hse _ Hk). simpl in Hse.
  change (occ (init occs travel buffer_arg)) with (occ self) in Hse. lia.
Qed.

(** On well-formed data the predecessor count is the number of chosen
    occurrences of the day that start earlier. *)
Lemma before_count_start d m :
  m ∈ todays self out d →
  before_count self out d !!! m
  = length (filter (λ k, start (occ self k) < start (occ self m))
                   (todays self out d)).
Proof.
  intros Hm. rewrite before_count_spec by done. f_equal.
  apply filter_ext_elem. intros k Hk. split.
  - intros [_ Hact]. by apply active_lt.
  - intros Hlt. assert (k ≠ m) as Hne by (intros ->; lia). split; [done|].
    destruct (active_total d k m Hk Hm Hne) as [Hact|Hact]; [done|].
    apply active_lt in Hact. lia.
Qed.

(** The extracted order lists every ordered pair in its active direction. *)
Lemma ordered_active d i j a b :
  ordered self out d !! i = Some a → ordered self out d !! j = Some b →
  (i < j)%nat → active self out a b = true.
Proof.
  intros Hi Hj Hij.
  assert (Ha : a ∈ todays self out d).
  { rewrite <-ordered_perm. by eapply list_elem_of_lookup_2. }
  assert (Hb : b ∈ todays self out d).
  { rewrite <-ordered_perm. by eapply list_elem_of_lookup_2. }
  assert (Hnd : NoDup (ordered self out d)).
  { rewrite ordered_perm. by apply NoDup_todays. }
  assert (Hne : a ≠ b).
  { intros ->. pose proof (NoDup_lookup _ _ _ _ Hnd Hi Hj). lia. }
  destruct (active_total d a b Ha Hb Hne) as [Hact|Hact]; [done|].
  exfalso. apply active_lt in Hact.
  pose proof (StronglySorted_lookup _ _ i j a b
    (sorted_sorted (λ kk, before_count self out d !!! kk) (todays self out d))
    Hi Hj Hij) as Hle.
  unfold key_le in Hle. rewrite !before_count_start in Hle by done.
  assert (length (filter (λ k, (start (occ self k) < start (occ self b))%Z)
                         (todays self out d))
          < length (filter (λ k, (start (occ self k) < start (occ self a))%Z)
                           (todays self out d)))%nat; [|lia].
  apply (length_filter_strict _ _ _ b); [intros x; lia|done|done|lia].
Qed.
End Ordering.

Lemma eval_days_day_off val d (l : list Z) :
  NoDup l → d ∈ l →
  (eval (day_off val d) (lpSum (LpVar ∘ u_ <$> l))
   == eval val (lpSum (LpVar ∘ u_ <$> l)) - val (u_ d))%Q.
Proof.
  induction 1 as [|d' l Hd' Hnd IH]; intros Hin.
  - by apply elem_of_nil in Hin.
  - change (day_off val d (u_ d') + eval (day_off val d) (lpSum (LpVar ∘ u_ <$> l))
            == val (u_ d') + eval val (lpSum (LpVar ∘ u_ <$> l)) - val (u_ d))%Q.
    apply elem_of_cons in Hin as [->|Hin].
    + rewrite (eval_lpSum_ext val (day_off val d')).
      * unfold day_off at 1. rewrite decide_True by done. lra.
      * intros a Ha. simpl. rewrite decide_False; [reflexivity|]. by intros ->.
    + rewrite IH by done. unfold day_off at 1. rewrite decide_False; [lra|].
      by intros ->.
Qed.

Section DayFlags.
Variable self : Optimizer.
Variable val : LpVariable → Q.
Hypothesis Hnd : NoDup (days self).
Hypothesis Hsat : Sat self val.

Lemma day_off_Sat d :
  (∀ k, k ∈ K self → day (occ self k) = d → gt_half (val (x_ k)) = false) →
  Sat self (day_off val d).
Proof.
  intros Hnone. destruct Hsat as [Hx Hu Hy Hc Hd Hl Ho Ht]. split.
  - exact Hx.
  - intros d' Hd'. simpl. case_decide; [by left|by apply Hu].
  - exact Hy.
  - intros i Hi. rewrite (eval_lpSum_ext val); [by apply Hc|]. reflexivity.
  - intros d' k Hd' Hk Hday. simpl. case_decide as Heq; [|by apply Hd].
    rewrite Heq in Hday. rewrite (binary_not_gt_half _ (Hx k Hk) (Hnone k Hk Hday)). lra.
  - exact Hl.
  - exact Ho.
  - exact Ht.
Qed.

Lemma eval_obj_day_off d :
  d ∈ days self →
  (eval (day_off val d) (obj self)
   == eval val (obj self) - inject_Z W1 * val (u_ d))%Q.
Proof.
  intros Hd. unfold obj. cbn [eval].
  rewrite eval_days_day_off by done.
  unfold gap_cost, travel_cost.
  rewrite (eval_lpSum_ext val (day_off val d)) by reflexivity.
  rewrite (eval_lpSum_ext val (day_off val d)) by reflexivity.
  ring.
Qed.

Hypothesis Hopt : ∀ val', Sat self val' → (eval val (obj self) <= eval val' (obj self))%Q.

(** In a minimiser a day flag is on exactly when an occurrence of that
    day is selected. *)
Lemma day_flag_iff d :
  d ∈ days self →
  gt_half (val (u_ d)) = true
  ↔ ∃ k, k ∈ K self ∧ day (occ self k) = d ∧ gt_half (val (x_ k)) = true.
Proof.
  intros Hd. split.
  - intros Hu.
    destruct (decide (Exists (λ k, day (occ self k) = d
                                   ∧ gt_half (val (x_ k)) = true) (K self)))
      as [Hex|Hnex].
    + apply Exists_exists in Hex as (k & Hk & Hday & Hg). eauto.
    + exfalso. apply not_Exists_Forall in Hnex; [|intros ?; apply _].
      rewrite Forall_forall in Hnex.
      assert (Hs' : Sat self (day_off val d)).
      { apply day_off_Sat. intros k Hk Hday. apply not_true_iff_false.
        intros Hg. apply (Hnex k Hk). done. }
      pose proof (Hopt _ Hs') as Hle. rewrite eval_obj_day_off in Hle by done.
      rewrite (binary_gt_half _ (sat_u _ _ Hsat d Hd) Hu) in Hle.
      unfold W1, inject_Z in Hle. lra.
  - intros (k & Hk & Hday & Hg). apply gt_half_spec in Hg. apply gt_half_spec.
    pose proof (sat_day _ _ Hsat d k Hd Hk Hday). lra.
Qed.
End DayFlags.

(** * The concrete catalogues *)

Lemma two_prob :
  prob two_self = ltac:(let p := eval vm_compute in (prob two_self) in exact p).
Proof. vm_compute. reflexivity. Qed.

Lemma two_feasible : feasible (prob two_self) two_val.
Proof.
  rewrite two_prob. split; cbn [variables constraints]; build_Forall.
  all: try (by left; vm_compute). all: try (by right; vm_compute).
  all: unfold holds; cbn; unfold inject_Z; lra.
Qed.

Lemma two_optimal : optimal (prob two_self) two_val.
Proof.
  split; [apply two_feasible|]. rewrite two_prob.
  intros val' Hf. read_feasible Hf. split_binary; lra.
Qed.

Lemma two_contract : engine_contract (prob two_self) two_out.
Proof. intros _. apply two_optimal. Qed.

Lemma cyc_prob :
  prob cyc_self = ltac:(let p := eval vm_compute in (prob cyc_self) in exact p).
Proof. vm_compute. reflexivity. Qed.

Lemma cyc_feasible : feasible (prob cyc_self) cyc_val.
Proof.
  rewrite cyc_prob. split; cbn [variables constraints]; build_Forall.
  all: try (by left; vm_compute). all: try (by right; vm_compute).
  all: unfold holds; cbn; unfold inject_Z; lra.
Qed.

(** The cyclic valuation is a minimiser: every feasible valuation orders
    "c" before "a", and the other two pairs are cheapest in the direction
    that closes the cycle. *)
Lemma cyc_optimal : optimal (prob cyc_self) cyc_val.
Proof.
  split; [apply cyc_feasible|]. rewrite cyc_prob.
  intros val' Hf. read_feasible Hf. split_binary; lra.
Qed.

Lemma cyc_contract : engine_contract (prob cyc_self) cyc_out.
Proof. intros _. apply cyc_optimal. Qed.

Lemma clash_prob :
  prob clash_self = ltac:(let p := eval vm_compute in (prob clash_self) in exact p).
Proof. vm_compute. reflexivity. Qed.

(** Scenario A has no feasible 0/1 valuation. *)
Lemma clash_infeasible val : ¬ feasible (prob clash_self) val.
Proof.
  rewrite clash_prob. intros Hf. read_feasible Hf. split_binary; lra.
Qed.

Lemma late_prob :
  prob late_self = ltac:(let p := eval vm_compute in (prob late_self) in exact p).
Proof. vm_compute. reflexivity. Qed.

Lemma late_infeasible val : ¬ feasible (prob late_self) val.
Proof.
  rewrite late_prob. intros Hf. read_feasible Hf. split_binary; lra.
Qed.

Lemma sample_prob :
  prob sample_self = ltac:(let p := eval vm_compute in (prob sample_self) in exact p).
Proof. vm_compute. reflexivity. Qed.

(** The valuation [sample_val] satisfies the model of the sample data. *)
Lemma sample_feasible : feasible (prob sample_self) sample_val.
Proof.
  rewrite sample_prob. split; cbn [variables constraints]; build_Forall.
  all: try (by left; vm_compute). all: try (by right; vm_compute).
  all: unfold holds; cbn; unfold inject_Z; lra.
Qed.

(** * Results of [optimize] *)

Lemma run_optimize self engine :
  run engine (optimize self) = Returned (extract self (engine (prob self))).
Proof. reflexivity. Qed.

Lemma foldl_schedule_size (f : Z → list string) l (s0 : gmap Z (list string)) :
  NoDup l → (∀ d, d ∈ l → s0 !! d = None) →
  size (foldl (λ sched d, if f d is [] then sched else <[d := f d]> sched) s0 l)
  = (size s0 + length (filter (λ d, f d ≠ []) l))%nat.
Proof.
  intros Hnd. revert s0. induction Hnd as [|a l Ha Hnd IH]; intros s0 Hfresh.
  - simpl. lia.
  - cbn [foldl]. rewrite filter_cons. destruct (f a) as [|k ks] eqn:Hfa.
    + rewrite decide_False by (intros ?; done). rewrite IH; [done|].
      intros d Hd. apply Hfresh, elem_of_cons. by right.
    + rewrite decide_True by done. rewrite IH.
      * rewrite map_size_insert_None; [simpl; lia|].
        apply Hfresh, elem_of_cons. by left.
      * intros d Hd. rewrite lookup_insert_ne by (intros ->; done).
        apply Hfresh, elem_of_cons. by right.
Qed.

Lemma schedule_size self out :
  NoDup (days self) →
  size (build_schedule self out)
  = length (filter (λ d, ordered self out d ≠ []) (days self)).
Proof.
  intros Hnd. unfold build_schedule. rewrite foldl_schedule_size; [|done|].
  - by rewrite map_size_empty.
  - intros d _. apply lookup_empty.
Qed.

Lemma days_used_length self out :
  days_used (extract self out)
  = length (filter (λ d, gt_half (value out (u_ d)) = true) (days self)).
Proof.
  simpl. induction (days self) as [|d l IH]; [done|].
  rewrite fmap_cons, filter_cons. cbn [sum_list sum_list_with]. rewrite IH.
  destruct (gt_half (value out (u_ d))) eqn:Hg.
  - by rewrite decide_True.
  - by rewrite decide_False.
Qed.

Lemma sorted_ext {A} (key key' : A → nat) (l : list A) :
  (∀ a, a ∈ l → key a = key' a) → sorted l key = sorted l key'.
Proof.
  induction l as [|a l IH]; intros Hext; [done|]. simpl.
  rewrite <-IH by (intros b Hb; apply Hext, elem_of_cons; by right).
  assert (Hsub : ∀ b, b ∈ sorted l key → key b = key' b).
  { intros b Hb. apply Hext, elem_of_cons. right. by rewrite <-(sorted_perm key l). }
  assert (Ha : key a = key' a) by (apply Hext, elem_of_cons; by left).
  revert Hsub. generalize (sorted l key) as s.
  induction s as [|b s IHs]; intros Hsub; [done|]. simpl.
  rewrite <-Ha, <-(Hsub b) by (apply elem_of_cons; by left).
  case_decide; [done|]. f_equal. apply IHs.
  intros c Hc. apply Hsub, elem_of_cons. by right.
Qed.

Section ResultFacts.
Variable occs : list (string * EventInstanceEntry).
Variable travel : gmap (string * string) Z.
Variable buffer_arg : option Z.
Let self := init occs travel buffer_arg.
Variable out : EngineResult.

Lemma todays_chosen d :
  todays self out d = filter (λ k, day (occ self k) = d) (chosen self out).
Proof. reflexivity. Qed.

Lemma schedule_is_Some d :
  is_Some (build_schedule self out !! d)
  ↔ ∃ k, k ∈ chosen self out ∧ day (occ self k) = d.
Proof.
  rewrite schedule_lookup. split.
  - intros Hsome. case_decide as Hd; [|by destruct Hsome].
    destruct Hd as [_ Hne]. rewrite ordered_nil in Hne.
    destruct (todays self out d) as [|k ks] eqn:Ht; [done|].
    exists k. assert (Hk : k ∈ todays self out d) by (rewrite Ht; left).
    apply elem_of_todays in Hk. tauto.
  - intros (k & Hk & Hday). rewrite decide_True; [done|]. split.
    + rewrite <-Hday. apply day_in_days.
      apply elem_of_chosen in Hk. tauto.
    + rewrite ordered_nil. intros Hnil.
      assert (Hin : k ∈ todays self out d) by by apply elem_of_todays.
      rewrite Hnil in Hin. by apply elem_of_nil in Hin.
Qed.

Lemma schedule_Some d l :
  build_schedule self out !! d = Some l → l = ordered self out d ∧ l ≠ [].
Proof.
  rewrite schedule_lookup. case_decide as Hd; [|done].
  intros [= <-]. tauto.
Qed.

Lemma schedule_empty :
  build_schedule self out = ∅ ↔ chosen self out = [].
Proof.
  split.
  - intros Hempty. destruct (chosen self out) as [|k ks] eqn:Hc; [done|].
    assert (Hsome : is_Some (build_schedule self out !! day (occ self k))).
    { apply schedule_is_Some. exists k. split; [|done]. rewrite Hc. left. }
    rewrite Hempty, lookup_empty in Hsome. by destruct Hsome.
  - intros Hnil. apply map_eq. intros d. rewrite lookup_empty.
    apply eq_None_not_Some. rewrite schedule_is_Some, Hnil.
    intros (k & Hk & _). by apply elem_of_nil in Hk.
Qed.

(** On the keys of a day the dictionary [before_count] holds the
    predecessor count of the specification. *)
Lemma before_count_predecessor d k :
  NoDup occs.*1 → k ∈ todays self out d →
  before_count self out d !!! k = predecessor_count self out d k.
Proof.
  intros Hnd Hk. rewrite before_count_spec by done.
  unfold predecessor_count. f_equal. apply filter_ext_elem. intros m Hm.
  unfold active. split.
  - intros [Hne [_ Hg]%andb_true_iff]. done.
  - intros [Hne Hg]. split; [done|]. apply andb_true_iff. split; [|done].
    apply bool_decide_eq_true. apply elem_of_same_day_pairs; [done|].
    apply elem_of_todays in Hm as [Hdm Hm]. apply elem_of_todays in Hk as [Hdk Hk].
    apply elem_of_chosen in Hm as [_ Hm]. apply elem_of_chosen in Hk as [_ Hk].
    repeat split; try done. exact (eq_trans Hdm (eq_sym Hdk)).
Qed.

Lemma ordered_predecessor d :
  NoDup occs.*1 →
  ordered self out d = sorted (todays self out d) (predecessor_count self out d).
Proof.
  intros Hnd. apply sorted_ext. intros k Hk. by apply before_count_predecessor.
Qed.
End ResultFacts.

(** * The claims *)

Lemma optimal_Sat self out :
  engine_contract (prob self) out → lp_status out = Optimal →
  Sat self (value out)
  ∧ ∀ val', Sat self val' → (eval (value out) (obj self) <= eval val' (obj self))%Q.
Proof.
  intros Hc Hst. destruct (Hc Hst) as [Hf Hmin]. split; [by apply feasible_Sat|].
  intros val' Hs. apply (Hmin val'). by apply feasible_Sat.
Qed.

(** C1, as amended.  For every catalogue whose occurrences end after they
    start, with non-negative travel times and buffer, and for every Optimal
    result of optimize: on every day, an occurrence listed later in
    schedule[d] starts no earlier than the end of any occurrence listed
    before it plus the travel time between their locations plus the
    buffer. *)
Theorem optimal_schedule_non_overlap occs travel buffer_arg engine r
    (self := init occs travel buffer_arg) :
  NoDup occs.*1 →
  well_formed occs travel (buffer_minutes self) →
  engine_contract (prob self) (engine (prob self)) →
  run engine (optimize self) = Returned r →
  status r = Optimal →
  non_overlap self r.
Proof.
  intros Hnd Hwf Hc Hrun Hst. rewrite run_optimize in Hrun. injection Hrun as <-.
  destruct (optimal_Sat _ _ Hc Hst) as [Hs _].
  intros d l i j a b Hl Hi Hj Hij. apply schedule_Some in Hl as [-> _].
  apply (active_gap occs travel buffer_arg (engine (prob self))); [done..|].
  by apply (ordered_active occs travel buffer_arg _ Hnd Hs Hwf d i j).
Qed.

Lemma two_NoDup : NoDup two_occs.*1.
Proof. compute_done. Qed.

Lemma two_well_formed : well_formed two_occs two_travel (buffer_minutes two_self).
Proof.
  split; [|split].
  - repeat constructor; simpl; lia.
  - unfold two_travel. repeat apply map_Forall_insert_2; try done.
  - done.
Qed.

(** C1, witness: the two visits of [two_occs], scheduled "a" then "b". *)
Lemma optimal_schedule_non_overlap_two_visits :
  schedule (extract two_self two_out) !! 0 = Some ["a"; "b"]
  ∧ non_overlap two_self (extract two_self two_out).
Proof.
  split; [vm_compute; reflexivity|].
  apply (optimal_schedule_non_overlap two_occs two_travel None (λ _, two_out)).
  - apply two_NoDup.
  - apply two_well_formed.
  - apply two_contract.
  - reflexivity.
  - reflexivity.
Defined.

(** C1, counterexample to the claim as stated (every catalogue): in
    [cyc_occs] occurrence "b" ends before it starts; the engine's optimum
    orders a before b, b before c and c before a, the per-day list is
    [a; b; c], and "c" starts before "a" ends. *)
Lemma cyclic_optimum_overlaps :
  NoDup cyc_occs.*1
  ∧ engine_contract (prob cyc_self) cyc_out
  ∧ run (λ _, cyc_out) (optimize cyc_self) = Returned (extract cyc_self cyc_out)
  ∧ status (extract cyc_self cyc_out) = Optimal
  ∧ schedule (extract cyc_self cyc_out) !! 0 = Some ["a"; "b"; "c"]
  ∧ ¬ non_overlap cyc_self (extract cyc_self cyc_out).
Proof.
  split; [compute_done|]. split; [apply cyc_contract|].
  split; [reflexivity|]. split; [reflexivity|].
  split; [vm_compute; reflexivity|].
  intros Hno.
  assert (Hgap : end_ (occ cyc_self "a") + travel_time cyc_self "a" "c"
                 + buffer_minutes cyc_self ≤ start (occ cyc_self "c")).
  { apply (Hno 0 ["a"; "b"; "c"] 0%nat 2%nat); [vm_compute; reflexivity|done|done|lia]. }
  vm_compute in Hgap. by apply Hgap.
Qed.

Lemma far_prob :
  prob far_self = ltac:(let p := eval vm_compute in (prob far_self) in exact p).
Proof. vm_compute. reflexivity. Qed.

Lemma far_one_day_feasible : feasible (prob far_self) far_one_day.
Proof.
  rewrite far_prob. split; cbn [variables constraints]; build_Forall.
  all: try (by left; vm_compute). all: try (by right; vm_compute).
  all: unfold holds; cbn; unfold inject_Z; lra.
Qed.

Lemma far_two_days_feasible : feasible (prob far_self) far_two_days.
Proof.
  rewrite far_prob. split; cbn [variables constraints]; build_Forall.
  all: try (by left; vm_compute). all: try (by right; vm_compute).
  all: unfold holds; cbn; unfold inject_Z; lra.
Qed.

Lemma far_two_days_optimal : optimal (prob far_self) far_two_days.
Proof.
  split; [apply far_two_days_feasible|].
  intros val' Hf. rewrite far_prob in Hf |- *. read_feasible Hf.
  repeat match goal with
         | H : (_ == 0 ∨ _)%Q |- _ => destruct H
         end; lra.
Qed.

Lemma chosen_covers_events occs travel buffer_arg out
    (self := init occs travel buffer_arg) :
  Sat self (value out) → exactly_one_per_event self (extract self out).
Proof.
  intros Hs i Hi. cbn [chosen_occurrences extract]. unfold chosen.
  set (val := value out) in *.
  assert (Hswap : filter (λ k, event (occ self k) = i)
                    (filter (λ k, gt_half (val (x_ k)) = true) (K self))
                  = filter (λ k, gt_half (val (x_ k)) = true)
                      (filter (λ k, event (occ self k) = i) (K self))).
  { rewrite !list_filter_filter. apply list_filter_iff. intros k. tauto. }
  rewrite Hswap. apply binary_sum_one.
  - apply Forall_forall. intros k [_ Hk]%list_elem_of_filter.
    by apply (sat_x _ _ Hs).
  - by apply (sat_coverage _ _ Hs).
Qed.

(** C2.  For every catalogue and every Optimal result of optimize, every
    event id that occurs in the catalogue has exactly one of its
    occurrences in chosen_occurrences. *)
Theorem optimal_result_covers_catalogue occs travel buffer_arg engine r
    (self := init occs travel buffer_arg) :
  engine_contract (prob self) (engine (prob self)) →
  run engine (optimize self) = Returned r →
  status r = Optimal →
  covers_catalogue occs self r.
Proof.
  intros Hc Hrun Hst. rewrite run_optimize in Hrun. injection Hrun as <-.
  destruct (optimal_Sat _ _ Hc Hst) as [Hs _].
  intros k0 e0 Hin.
  assert (Hi : event e0 ∈ events self).
  { apply elem_of_events. by exists k0, e0. }
  destruct (chosen_covers_events occs travel buffer_arg _ Hs _ Hi) as [k Hk].
  fold self in Hk.
  exists k. split; [|exact Hk].
  assert (Hmem : k ∈ filter (λ k', event (occ self k') = event e0)
                   (chosen_occurrences (extract self (engine (prob self)))))
    by (rewrite Hk; left).
  apply list_elem_of_filter in Hmem as [_ [_ HK]%elem_of_chosen].
  by apply occ_elem.
Qed.

(** C2, witness: in [far_occs] event 2 is offered twice ("b" and "b2");
    the optimum chooses "a" and "b2", one occurrence for each event. *)
Lemma optimal_result_covers_catalogue_two_offers :
  let r := extract far_self {| value := far_two_days; lp_status := Optimal |} in
  chosen_occurrences r = ["a"; "b2"]
  ∧ filter (λ k, event (occ far_self k) = 2) (K far_self) = ["b"; "b2"]
  ∧ covers_catalogue far_occs far_self r.
Proof.
  cbn zeta. split; [vm_compute; reflexivity|]. split; [vm_compute; reflexivity|].
  apply (optimal_result_covers_catalogue far_occs ∅ None
           (λ _, {| value := far_two_days; lp_status := Optimal |})).
  - intros _. apply far_two_days_optimal.
  - reflexivity.
  - reflexivity.
Defined.

(** C3, as amended.  For every Optimal result of optimize, days_used
    equals the number of days that are keys of the schedule. *)
Theorem optimal_days_used_counts_schedule occs travel buffer_arg engine r
    (self := init occs travel buffer_arg) :
  engine_contract (prob self) (engine (prob self)) →
  run engine (optimize self) = Returned r →
  status r = Optimal →
  days_used_consistent r.
Proof.
  intros Hc Hrun Hst. rewrite run_optimize in Hrun. injection Hrun as <-.
  destruct (optimal_Sat _ _ Hc Hst) as [Hs Hmin].
  unfold days_used_consistent. rewrite days_used_length.
  cbn [schedule extract]. rewrite schedule_size by apply NoDup_days.
  f_equal. apply filter_ext_elem. intros d Hd.
  rewrite (day_flag_iff self _ (NoDup_days occs travel buffer_arg) Hs Hmin d Hd).
  rewrite ordered_nil. split.
  - intros (k & Hk & Hday & Hg) Hnil.
    assert (Hin : k ∈ todays self (engine (prob self)) d).
    { apply elem_of_todays. split; [done|]. by apply elem_of_chosen. }
    rewrite Hnil in Hin. by apply elem_of_nil in Hin.
  - intros Hne. destruct (todays self (engine (prob self)) d) as [|k ks] eqn:Ht; [done|].
    assert (Hin : k ∈ todays self (engine (prob self)) d) by (rewrite Ht; left).
    apply elem_of_todays in Hin as [Hday [Hg Hk]%elem_of_chosen]. eauto.
Qed.

(** C3, witness: one day used, one key in the schedule. *)
Lemma optimal_days_used_two_visits :
  days_used (extract two_self two_out) = 1%nat
  ∧ days_used_consistent (extract two_self two_out).
Proof.
  split; [vm_compute; reflexivity|].
  apply (optimal_days_used_counts_schedule two_occs two_travel None (λ _, two_out)).
  - apply two_contract.
  - reflexivity.
  - reflexivity.
Defined.

(** C3, counterexample to the claim as stated (every result): for the
    infeasible catalogue [clash_occs] the engine reports Infeasible; with
    selection values 1 and the day flag 0 left in the variables, the
    schedule has one key and days_used is 0. *)
Lemma infeasible_result_days_used_differs :
  (∀ val, ¬ feasible (prob clash_self) val)
  ∧ engine_contract (prob clash_self) clash_out_flag_off
  ∧ run (λ _, clash_out_flag_off) (optimize clash_self)
    = Returned (extract clash_self clash_out_flag_off)
  ∧ days_used (extract clash_self clash_out_flag_off) = 0%nat
  ∧ size (schedule (extract clash_self clash_out_flag_off)) = 1%nat
  ∧ ¬ days_used_consistent (extract clash_self clash_out_flag_off).
Proof.
  split; [apply clash_infeasible|]. split; [intros [=]|].
  split; [reflexivity|]. split; [vm_compute; reflexivity|].
  split; [vm_compute; reflexivity|]. intros Hd. vm_compute in Hd. done.
Qed.

(** With the ordering variable at 0 the time constraint of a pair holds
    exactly when the gap requirement misses by no more than M. *)
Lemma time_constraint_relaxed self val p :
  (val (y_ p.1 p.2) == 0)%Q →
  holds val (time_constraint self p)
  ↔ end_ (occ self p.1) + travel_time self p.1 p.2 + buffer_minutes self
    - start (occ self p.2) ≤ M self.
Proof.
  intros Hy. unfold holds, time_constraint. cbn. rewrite Hy.
  set (need := end_ (occ self p.1) + travel_time self p.1 p.2 + buffer_minutes self).
  assert (need - start (occ self p.2) ≤ M self
          ↔ need ≤ M self + start (occ self p.2)) as -> by lia.
  rewrite Zle_Qle, inject_Z_plus. change (inject_Z 1) with 1%Q.
  split; intros Hle; lra.
Qed.

(** C4, the code at the failing input [late_occs] (a visit 23:00-23:30
    and a visit 00:00-00:30 on one day, default buffer): the requirement
    of the pair (late, early) misses by 1470 minutes, more than M = 1440,
    so its constraint is violated with the ordering variable at 0 and the
    whole model has no feasible valuation, although visiting "early" and
    then "late" respects travel and buffer. *)
Theorem big_M_too_small_late_early :
  ("late", "early") ∈ same_day_pairs late_self
  ∧ M late_self = 1440
  ∧ end_ (occ late_self "late") + travel_time late_self "late" "early"
    + buffer_minutes late_self - start (occ late_self "early") = 1470
  ∧ (∀ val, (val (y_ "late" "early") == 0)%Q →
       ¬ holds val (time_constraint late_self ("late", "early")))
  ∧ (∀ val, ¬ feasible (prob late_self) val)
  ∧ end_ (occ late_self "early") + travel_time late_self "early" "late"
    + buffer_minutes late_self ≤ start (occ late_self "late").
Proof.
  split; [compute_done|]. split; [reflexivity|]. split; [reflexivity|].
  split; [|split; [apply late_infeasible|by vm_compute]].
  intros val Hy Hh.
  apply (time_constraint_relaxed late_self val ("late", "early") Hy) in Hh.
  vm_compute in Hh. by apply Hh.
Qed.

(** * The call of optimize raises nothing of its own *)

Lemma for_each_Returned {A B} (body : A → Outcome (list B)) (g : A → list B) l :
  (∀ a, a ∈ l → body a = Returned (g a)) →
  for_each body l = Returned (l ≫= g).
Proof.
  induction l as [|a l IH]; intros Hall; [done|].
  cbn [for_each]. rewrite (Hall a) by left.
  rewrite IH by (intros a' Ha'; apply Hall; by right). done.
Qed.

Lemma for_each_Raised {A B} (body : A → Outcome (list B)) a l err :
  body a = Raised err → for_each body (a :: l) = Raised err.
Proof. intros Hb. cbn [for_each]. by rewrite Hb. Qed.

Lemma bind_singleton_filter {A B} (P : A → Prop) `{∀ a, Decision (P a)}
    (f : A → B) l :
  l ≫= (λ a, if decide (P a) then [f a] else []) = f <$> filter P l.
Proof.
  induction l as [|a l IH]; [done|].
  cbn [mbind list_bind]. rewrite filter_cons. rewrite IH.
  by case_decide.
Qed.

Lemma bind_fmap_singleton {A B} (f : A → B) (l : list A) :
  l ≫= (λ a, [f a]) = f <$> l.
Proof. induction l as [|a l IH]; [done|]. cbn [mbind list_bind]. by rewrite IH. Qed.

Section CallFacts.
Variable occs : list (string * EventInstanceEntry).
Variable travel : gmap (string * string) Z.
Variable buffer_arg : option Z.
Let self := init occs travel buffer_arg.
Hypothesis Hdict : NoDup occs.*1.

Lemma occurrences_at_key k : k ∈ K self → occurrences_at self k = Returned (occ self k).
Proof.
  intros Hk. unfold occurrences_at, occ, occ_in.
  destruct (getitem_key (occurrences self) k Hk) as (e & He & _).
  by rewrite He.
Qed.

Lemma x_at_key k : k ∈ K self → x_at self k = Returned (x_ k).
Proof. intros Hk. unfold x_at. by rewrite decide_True. Qed.

Lemma u_at_day d : d ∈ days self → u_at self d = Returned (u_ d).
Proof. intros Hd. unfold u_at. by rewrite decide_True. Qed.

Lemma y_at_pair p : p ∈ same_day_pairs self → y_at self p = Returned (y_ p.1 p.2).
Proof. intros Hp. unfold y_at. by rewrite decide_True. Qed.

Lemma pair_keys p :
  p ∈ same_day_pairs self →
  p.1 ∈ K self ∧ p.2 ∈ K self ∧ (p.2, p.1) ∈ same_day_pairs self.
Proof.
  destruct p as [k m]. intros Hp. cbn [fst snd].
  pose proof (same_day_pairs_sym occs travel buffer_arg k m Hdict Hp) as Hsym.
  apply elem_of_same_day_pairs in Hp as (Hk & Hm & _); done.
Qed.

Lemma travel_time_at_pair k m :
  k ∈ K self → m ∈ K self →
  travel_time_at self k m = Returned (travel_time self k m).
Proof.
  intros Hk Hm. unfold travel_time_at.
  rewrite !occurrences_at_key by done. done.
Qed.

Lemma build_coverage_ok : build_coverage self = Returned (coverage self).
Proof.
  unfold build_coverage, coverage.
  rewrite (for_each_Returned _
    (λ i, [lpSum (LpVar ∘ x_ <$> filter (λ k, event (occ self k) = i) (K self))
           $== LpConst 1])).
  - by rewrite bind_fmap_singleton.
  - intros i _.
    rewrite (for_each_Returned _
      (λ k, if decide (event (occ self k) = i) then [(LpVar ∘ x_) k] else [])).
    + by rewrite bind_singleton_filter.
    + intros k Hk. rewrite occurrences_at_key by done. cbn.
      case_decide; [|done]. by rewrite x_at_key.
Qed.

Lemma build_day_activation_ok :
  build_day_activation self = Returned (day_activation self).
Proof.
  unfold build_day_activation, day_activation.
  apply for_each_Returned. intros d Hd.
  rewrite (for_each_Returned _
    (λ k, if decide (day (occ self k) = d) then [x_ k $<= u_ d] else [])).
  - by rewrite bind_singleton_filter.
  - intros k Hk. rewrite occurrences_at_key by done. cbn.
    case_decide; [|done]. rewrite x_at_key, u_at_day by done. done.
Qed.

Lemma build_linkage_ok : build_linkage self = Returned (linkage self).
Proof.
  unfold build_linkage, linkage. apply for_each_Returned. intros p Hp.
  destruct (pair_keys p Hp) as (Hk & Hm & _).
  rewrite y_at_pair, !x_at_key by done. done.
Qed.

Lemma build_canonical_pairs_ok :
  build_canonical_pairs self = Returned (canonical_pairs self).
Proof.
  unfold build_canonical_pairs, canonical_pairs.
  rewrite (for_each_Returned _
    (λ p, if decide (String.ltb p.1 p.2 = true
                     ∧ day (occ self p.1) = day (occ self p.2))
          then [p] else [])).
  - rewrite (bind_singleton_filter _ id). by rewrite list_fmap_id.
  - intros p Hp. destruct (pair_keys p Hp) as (Hk & Hm & _).
    destruct (String.ltb p.1 p.2) eqn:Hlt.
    + rewrite !occurrences_at_key by done. cbn.
      repeat case_decide; try done; tauto.
    + rewrite decide_False; [done|]. by intros [? _].
Qed.

Lemma build_one_direction_ok :
  build_one_direction self = Returned (one_direction self).
Proof.
  unfold build_one_direction, one_direction.
  rewrite build_canonical_pairs_ok. cbn [mbind outcome_bind].
  apply for_each_Returned. intros p [_ Hp]%list_elem_of_filter.
  destruct (pair_keys p Hp) as (Hk & Hm & Hsym).
  rewrite !(y_at_pair p), !(y_at_pair (p.2, p.1)), !x_at_key by done. done.
Qed.

Lemma build_time_feasibility_ok :
  build_time_feasibility self (Some (buffer_minutes self))
  = Returned (time_feasibility self).
Proof.
  unfold build_time_feasibility, time_feasibility.
  rewrite (for_each_Returned _ (λ p, [time_constraint self p])).
  - by rewrite bind_fmap_singleton.
  - intros p Hp. destruct (pair_keys p Hp) as (Hk & Hm & _).
    rewrite !occurrences_at_key, travel_time_at_pair, y_at_pair by done. done.
Qed.

(** Without a same-day pair the buffer is not read. *)
Lemma build_time_feasibility_no_pair buffer :
  same_day_pairs self = [] →
  build_time_feasibility self buffer = Returned (time_feasibility self).
Proof.
  intros Hnil. unfold build_time_feasibility, time_feasibility.
  by rewrite Hnil.
Qed.

(** With a same-day pair and the buffer [None], the sum of the first pair
    raises. *)
Lemma build_time_feasibility_None :
  same_day_pairs self ≠ [] →
  build_time_feasibility self None = Raised "TypeError".
Proof.
  intros Hne. unfold build_time_feasibility.
  destruct (same_day_pairs self) as [|p ps] eqn:Hps; [done|].
  apply for_each_Raised.
  assert (Hp : p ∈ same_day_pairs self) by (rewrite Hps; left).
  destruct (pair_keys p Hp) as (Hk & Hm & _).
  rewrite !occurrences_at_key, travel_time_at_pair by done. done.
Qed.

Lemma build_gap_cost_ok : build_gap_cost self = Returned (gap_cost self).
Proof.
  unfold build_gap_cost, gap_cost.
  rewrite (for_each_Returned _
    (λ p, [((start (occ self p.2) - end_ (occ self p.1))%Z * y_ p.1 p.2)%lp])).
  - by rewrite bind_fmap_singleton.
  - intros p Hp. destruct (pair_keys p Hp) as (Hk & Hm & _).
    rewrite y_at_pair, !occurrences_at_key by done. done.
Qed.

Lemma build_travel_cost_ok : build_travel_cost self = Returned (travel_cost self).
Proof.
  unfold build_travel_cost, travel_cost.
  rewrite (for_each_Returned _ (λ p, [(travel_time self p.1 p.2 * y_ p.1 p.2)%lp])).
  - by rewrite bind_fmap_singleton.
  - intros p Hp. destruct (pair_keys p Hp) as (Hk & Hm & _).
    rewrite y_at_pair, travel_time_at_pair by done. done.
Qed.

Lemma build_obj_ok : build_obj self = Returned (obj self).
Proof.
  unfold build_obj, obj. rewrite build_gap_cost_ok, build_travel_cost_ok.
  cbn [mbind outcome_bind].
  rewrite (for_each_Returned _ (λ d, [(LpVar ∘ u_) d])).
  - by rewrite bind_fmap_singleton.
  - intros d Hd. by rewrite u_at_day.
Qed.

(** The model building raises nothing when the buffer is an integer, and
    builds the problem of the definitions above. *)
Lemma build_prob_ok :
  build_prob self (Some (buffer_minutes self)) = Returned (prob self).
Proof.
  unfold build_prob.
  rewrite build_coverage_ok, build_day_activation_ok, build_linkage_ok,
    build_one_direction_ok, build_time_feasibility_ok, build_obj_ok.
  reflexivity.
Qed.

Lemma build_prob_no_pair buffer :
  same_day_pairs self = [] → build_prob self buffer = Returned (prob self).
Proof.
  intros Hnil. unfold build_prob.
  rewrite build_coverage_ok, build_day_activation_ok, build_linkage_ok,
    build_one_direction_ok, (build_time_feasibility_no_pair _ Hnil), build_obj_ok.
  reflexivity.
Qed.

Lemma build_prob_None :
  same_day_pairs self ≠ [] → build_prob self None = Raised "TypeError".
Proof.
  intros Hne. unfold build_prob.
  rewrite build_coverage_ok, build_day_activation_ok, build_linkage_ok,
    build_one_direction_ok, (build_time_feasibility_None Hne).
  reflexivity.
Qed.

(** ** Processing the solution *)

Variable out : EngineResult.

Lemma read_chosen_ok : read_chosen self out = Returned (chosen self out).
Proof.
  unfold read_chosen, chosen.
  rewrite (for_each_Returned _
    (λ k, if decide (gt_half (value out (x_ k)) = true) then [id k] else [])).
  - rewrite (bind_singleton_filter _ id). by rewrite list_fmap_id.
  - intros k Hk. rewrite x_at_key by done. cbn.
    destruct (gt_half (value out (x_ k))); by case_decide.
Qed.

Lemma read_todays_ok d :
  read_todays self (chosen self out) d = Returned (todays self out d).
Proof.
  unfold read_todays, todays.
  rewrite (for_each_Returned _
    (λ k, if decide (day (occ self k) = d) then [id k] else [])).
  - rewrite (bind_singleton_filter _ id). by rewrite list_fmap_id.
  - intros k [_ Hk]%elem_of_chosen. by rewrite occurrences_at_key.
Qed.

Lemma foldl_count_step (ps : list (string * string)) (bc : gmap string nat) :
  (∀ p, p ∈ ps → is_Some (bc !! p.2)) →
  foldl (count_step self out) (Returned bc) ps
  = Returned (foldl (λ bc p, if active self out p.1 p.2
                             then <[p.2 := S (bc !!! p.2)]> bc else bc) bc ps).
Proof.
  revert bc. induction ps as [|p ps IH]; intros bc Hdom; [done|].
  cbn [foldl].
  assert (Hstep : count_step self out (Returned bc) p
            = Returned (if active self out p.1 p.2
                        then <[p.2 := S (bc !!! p.2)]> bc else bc)).
  { unfold count_step, active. cbn [mbind outcome_bind].
    destruct p as [k m]. cbn [fst snd]. case_decide as Hp.
    - rewrite bool_decide_eq_true_2 by done. rewrite y_at_pair by done.
      cbn [mbind outcome_bind fst snd andb].
      destruct (gt_half (value out (y_ k m))); [|done].
      destruct (Hdom (k, m)) as [n Hn]; [left|]. cbn [snd] in Hn.
      rewrite Hn. by rewrite (lookup_total_correct _ _ _ Hn).
    - by rewrite bool_decide_eq_false_2. }
  rewrite Hstep. apply IH. intros p' Hp'.
  destruct (active self out p.1 p.2); [|apply Hdom; by right].
  destruct (decide (p.2 = p'.2)) as [->|Hne].
  - rewrite lookup_insert_eq. eauto.
  - rewrite lookup_insert_ne by done. apply Hdom. by right.
Qed.

Lemma zero_dict_is_Some (l : list string) k :
  k ∈ l → is_Some ((list_to_map ((λ k, (k, 0%nat)) <$> l) : gmap string nat) !! k).
Proof.
  intros Hk. destruct (list_to_map _ !! k) as [n|] eqn:Hn; [eauto|].
  apply not_elem_of_list_to_map in Hn. destruct Hn.
  rewrite <-list_fmap_compose. apply list_elem_of_fmap. by exists k.
Qed.

Lemma read_before_count_ok d :
  read_before_count self out (todays self out d)
  = Returned (before_count self out d).
Proof.
  unfold read_before_count, before_count. apply foldl_count_step.
  intros [k m] [_ Hm]%elem_of_permutations2_from. by apply zero_dict_is_Some.
Qed.

End CallFacts.

Section SolutionFacts.
Variable occs : list (string * EventInstanceEntry).
Variable travel : gmap (string * string) Z.
Variable buffer_arg : option Z.
Let self := init occs travel buffer_arg.
Variable out : EngineResult.

Lemma before_count_is_Some d k :
  k ∈ todays self out d → is_Some (before_count self out d !! k).
Proof.
  intros Hk. unfold before_count.
  generalize (permutations2 (todays self out d)) as ps.
  assert (Hz := zero_dict_is_Some (todays self out d) k Hk). revert Hz.
  generalize (list_to_map ((λ k, (k, 0%nat)) <$> todays self out d)
              : gmap string nat) as bc.
  intros bc Hz ps. revert bc Hz.
  induction ps as [|p ps IH]; intros bc Hz; [done|].
  cbn [foldl]. apply IH. destruct (active self out p.1 p.2); [|done].
  destruct (decide (p.2 = k)) as [->|Hne].
  - rewrite lookup_insert_eq. eauto.
  - by rewrite lookup_insert_ne.
Qed.

Lemma read_ordered_ok d :
  read_ordered self out (todays self out d) = Returned (ordered self out d).
Proof.
  unfold read_ordered. rewrite (read_before_count_ok occs travel buffer_arg).
  cbn [mbind outcome_bind].
  rewrite (for_each_Returned _ (λ kk, [before_count self out d !!! kk])).
  - reflexivity.
  - intros kk [n Hn]%before_count_is_Some. cbv beta. fold self. rewrite Hn.
    by rewrite (lookup_total_correct _ _ _ Hn).
Qed.

Lemma foldl_schedule_step ds (sched : gmap Z (list string)) :
  foldl (schedule_step self out (chosen self out)) (Returned sched) ds
  = Returned (foldl (λ sched d, if ordered self out d is []
                                then sched else <[d := ordered self out d]> sched)
                    sched ds).
Proof.
  revert sched. induction ds as [|d ds IH]; intros sched; [done|].
  cbn [foldl].
  assert (Hstep : schedule_step self out (chosen self out) (Returned sched) d
            = Returned (if ordered self out d is []
                        then sched else <[d := ordered self out d]> sched)).
  { unfold schedule_step. cbn [mbind outcome_bind].
    rewrite (read_todays_ok occs travel buffer_arg). cbn [mbind outcome_bind].
    rewrite read_ordered_ok. reflexivity. }
  rewrite Hstep. apply IH.
Qed.

(** Processing the solution raises nothing and gives the result of the
    definitions above. *)
Lemma process_solution_ok :
  process_solution self out = Returned (extract self out).
Proof.
  unfold process_solution.
  rewrite (read_chosen_ok occs travel buffer_arg). cbn [mbind outcome_bind].
  rewrite foldl_schedule_step. cbn [mbind outcome_bind].
  rewrite (for_each_Returned _ (λ d, [Nat.b2n (gt_half (value out (u_ d)))])).
  - cbn [mbind outcome_bind]. rewrite bind_fmap_singleton. reflexivity.
  - intros d Hd. by rewrite (u_at_day occs travel buffer_arg).
Qed.

End SolutionFacts.

Section OptimizeCall.
Variable occs : list (string * EventInstanceEntry).
Variable travel : gmap (string * string) Z.
Variable buffer_arg : option Z.
Let self := init occs travel buffer_arg.
Hypothesis Hdict : NoDup occs.*1.

Lemma optimize_call_built buffer :
  build_prob self buffer = Returned (prob self) →
  ∃ k, optimize_call self buffer = Engine (prob self) k
       ∧ ∀ solved, k solved = after_solve_of self solved.
Proof.
  intros Hb. unfold optimize_call. rewrite Hb. eexists. split; [reflexivity|].
  intros [out|err]; cbn [after_solve_of]; [|done].
  by rewrite (process_solution_ok occs travel buffer_arg).
Qed.

Lemma run_call_built buffer solve :
  build_prob self buffer = Returned (prob self) →
  calls_of solve (optimize_call self buffer) = [prob self]
  ∧ run_call solve (optimize_call self buffer)
    = match solve (prob self) with
      | Returned out => Returned (extract self out)
      | Raised err => Raised err
      end.
Proof.
  intros (k & -> & Hk)%optimize_call_built. cbn [calls_of run_call].
  rewrite Hk. destruct (solve (prob self)); done.
Qed.

Lemma run_call_None solve :
  same_day_pairs self ≠ [] →
  calls_of solve (optimize_call self None) = []
  ∧ run_call solve (optimize_call self None) = Raised "TypeError".
Proof.
  intros Hne. unfold optimize_call, self.
  by rewrite (build_prob_None occs travel buffer_arg Hdict Hne).
Qed.

End OptimizeCall.

Section CallOutcome.
Variable occs : list (string * EventInstanceEntry).
Variable travel : gmap (string * string) Z.
Variable buffer_arg : option Z.
Let self := init occs travel buffer_arg.

Lemma events_have_candidates :
  Forall (λ i, ∃ k e, k ∈ K self ∧ (k, e) ∈ occs ∧ event e = i) (events self).
Proof.
  apply Forall_forall. intros i (k & e & Hin & He)%elem_of_events.
  exists k, e. split; [by eapply elem_of_K|done].
Qed.

Lemma schedule_empty_values out :
  schedule (extract self out) = ∅
  ↔ ∀ k, k ∈ K self → gt_half (value out (x_ k)) = false.
Proof.
  cbn [schedule extract]. unfold self. rewrite schedule_empty. fold self. split.
  - intros Hnil k Hk. destruct (gt_half (value out (x_ k))) eqn:Hg; [|done].
    assert (Hin : k ∈ chosen self out) by by apply elem_of_chosen.
    rewrite Hnil in Hin. by apply elem_of_nil in Hin.
  - intros Hall. destruct (chosen self out) as [|k ks] eqn:Hc; [done|].
    assert (Hin : k ∈ chosen self out) by (rewrite Hc; left).
    apply elem_of_chosen in Hin as [Hg Hk]. rewrite (Hall k Hk) in Hg. done.
Qed.

(** When the engine answers, the call with its exceptions is the call of
    the definitions without them. *)
Lemma optimize_call_answered engine :
  NoDup occs.*1 →
  run_call (λ p, Returned (engine p)) (optimize_call self (Some (buffer_minutes self)))
  = run engine (optimize self).
Proof.
  intros Hnd. unfold self.
  destruct (run_call_built occs travel buffer_arg
              (Some (buffer_minutes (init occs travel buffer_arg)))
              (λ p, Returned (engine p))) as [_ ->]; [by apply build_prob_ok|].
  reflexivity.
Qed.
End CallOutcome.

(** C5, as amended.  optimize validates nothing.  For every catalogue
    (a dictionary), malformed or not, and every integer buffer, building
    the model raises no exception, the engine is run exactly once, on the
    model built from the catalogue as it is, and an exception of the call
    can only be one raised by the engine run itself.  An event without a
    candidate occurrence cannot be referenced, because the events are read
    off the occurrences. *)
Theorem optimize_call_never_validates occs travel buffer_arg
    (self := init occs travel buffer_arg)
    (call := optimize_call self (Some (buffer_minutes self))) :
  NoDup occs.*1 →
  build_prob self (Some (buffer_minutes self)) = Returned (prob self)
  ∧ (∀ solve, calls_of solve call = [prob self])
  ∧ (∀ solve err, run_call solve call = Raised err → solve (prob self) = Raised err)
  ∧ Forall (λ i, ∃ k e, k ∈ K self ∧ (k, e) ∈ occs ∧ event e = i) (events self).
Proof.
  intros Hnd. subst call self.
  pose proof (build_prob_ok occs travel buffer_arg Hnd) as Hb.
  split; [exact Hb|]. split; [|split; [|apply events_have_candidates]].
  - intros solve.
    by destruct (run_call_built occs travel buffer_arg _ solve Hb) as [-> _].
  - intros solve err.
    destruct (run_call_built occs travel buffer_arg _ solve Hb) as [_ ->].
    destruct (solve _); [done|]. by intros [= ->].
Qed.

(** C5, witness: [cyc_occs], whose occurrence "b" starts at 10 and ends at
    0, goes to the engine unchecked. *)
Lemma optimize_call_never_validates_cyclic :
  malformed cyc_occs
  ∧ build_prob cyc_self (Some 0) = Returned (prob cyc_self)
  ∧ calls_of (λ _, Returned cyc_out) (optimize_call cyc_self (Some 0))
    = [prob cyc_self].
Proof.
  split.
  { apply Exists_cons_tl, Exists_cons_hd. simpl. lia. }
  destruct (optimize_call_never_validates cyc_occs ∅ (Some 0)) as (Hb & Hcalls & _);
    [compute_done|].
  split; [exact Hb|]. apply (Hcalls (λ _, Returned cyc_out)).
Defined.

(** C5, counterexample: [cyc_occs] holds an occurrence with start 10 and
    end 0, and optimize runs the engine on it and returns its Optimal
    answer. *)
Lemma malformed_catalogue_reaches_engine :
  malformed cyc_occs
  ∧ engine_calls (λ _, cyc_out) (optimize cyc_self) = [prob cyc_self]
  ∧ run (λ _, cyc_out) (optimize cyc_self) = Returned (extract cyc_self cyc_out)
  ∧ status (extract cyc_self cyc_out) = Optimal
  ∧ ¬ fails_fast cyc_self
  ∧ calls_of (λ _, Returned cyc_out) (optimize_call cyc_self (Some 0))
    = [prob cyc_self]
  ∧ run_call (λ _, Returned cyc_out) (optimize_call cyc_self (Some 0))
    = Returned (extract cyc_self cyc_out)
  ∧ ¬ call_fails_fast cyc_self (Some 0).
Proof.
  split.
  { apply Exists_cons_tl, Exists_cons_hd. simpl. lia. }
  split; [reflexivity|]. split; [reflexivity|]. split; [reflexivity|].
  split.
  { intros Hff. destruct (Hff (λ _, cyc_out)) as [_ Hcalls]. discriminate Hcalls. }
  assert (Hnd : NoDup cyc_occs.*1) by compute_done.
  pose proof (build_prob_ok cyc_occs ∅ (Some 0) Hnd) as Hb.
  destruct (run_call_built cyc_occs ∅ (Some 0) _ (λ _, Returned cyc_out) Hb)
    as [Hcalls Hrun].
  split; [exact Hcalls|]. split; [exact Hrun|].
  intros Hff. destruct (Hff (λ _, Returned cyc_out)) as [_ Hnone].
  assert (Heq : [prob cyc_self] = []) by exact (eq_trans (eq_sym Hcalls) Hnone).
  discriminate Heq.
Qed.

(** C6, as amended.  For every catalogue (a dictionary) and every integer
    buffer: when the engine run returns, with whatever status, optimize
    returns a result that carries this status, and its schedule is empty
    exactly when no occurrence has a selection value above 0.5; the status
    has no part in it.  When the engine run raises, optimize raises the
    same exception and returns no result. *)
Theorem optimize_call_returns_engine_status occs travel buffer_arg solve
    (self := init occs travel buffer_arg)
    (call := optimize_call self (Some (buffer_minutes self))) :
  NoDup occs.*1 →
  (∀ val st, solve (prob self) = Returned {| value := val; lp_status := st |} →
     ∃ r, run_call solve call = Returned r
          ∧ status r = st
          ∧ (schedule r = ∅ ↔ ∀ k, k ∈ K self → gt_half (val (x_ k)) = false))
  ∧ (∀ err, solve (prob self) = Raised err → run_call solve call = Raised err).
Proof.
  intros Hnd. subst call self.
  pose proof (build_prob_ok occs travel buffer_arg Hnd) as Hb.
  destruct (run_call_built occs travel buffer_arg _ solve Hb) as [_ ->]. split.
  - intros val st ->. eexists. split; [reflexivity|]. split; [reflexivity|].
    apply (schedule_empty_values occs travel buffer_arg
             {| value := val; lp_status := st |}).
  - by intros err ->.
Qed.

(** C6, witness: on Scenario A the engine returns with status Infeasible
    and selection values 1, and the returned schedule is not empty. *)
Lemma optimize_call_returns_infeasible_schedule :
  ∃ r, run_call (λ _, Returned clash_out) (optimize_call clash_self (Some 60))
       = Returned r
       ∧ status r = Infeasible
       ∧ schedule r ≠ ∅.
Proof.
  destruct (optimize_call_returns_engine_status clash_occs ∅ (Some 60)
              (λ _, Returned clash_out)) as [Hret _]; [compute_done|].
  destruct (Hret clash_relaxed Infeasible eq_refl) as (r & Hrun & Hst & Hempty).
  exists r. split; [exact Hrun|]. split; [exact Hst|].
  intros Hnil. assert (Hoff := proj1 Hempty Hnil "a").
  assert (Hoff' : gt_half (clash_relaxed (x_ "a")) = false)
    by (apply Hoff; left).
  discriminate Hoff'.
Defined.

(** C6, counterexample: Scenario A ([clash_occs]) has no feasible
    valuation; with the values of the linear relaxation left in the
    variables under status Infeasible, the returned schedule is
    {0: [a; b]}. *)
Lemma infeasible_result_has_schedule :
  (∀ val, ¬ feasible (prob clash_self) val)
  ∧ engine_contract (prob clash_self) clash_out
  ∧ run (λ _, clash_out) (optimize clash_self)
    = Returned (extract clash_self clash_out)
  ∧ status (extract clash_self clash_out) = Infeasible
  ∧ schedule (extract clash_self clash_out) !! 0 = Some ["a"; "b"]
  ∧ schedule (extract clash_self clash_out) ≠ ∅
  ∧ run_call (λ _, Returned clash_out) (optimize_call clash_self (Some 60))
    = Returned (extract clash_self clash_out).
Proof.
  split; [apply clash_infeasible|]. split; [intros [=]|].
  split; [reflexivity|]. split; [reflexivity|].
  assert (Hl : schedule (extract clash_self clash_out) !! 0 = Some ["a"; "b"])
    by (vm_compute; reflexivity).
  split; [exact Hl|]. split.
  { intros Hempty. rewrite Hempty, lookup_empty in Hl. done. }
  assert (Hnd : NoDup clash_occs.*1) by compute_done.
  pose proof (build_prob_ok clash_occs ∅ (Some 60) Hnd) as Hb.
  by destruct (run_call_built clash_occs ∅ (Some 60) _ (λ _, Returned clash_out) Hb)
    as [_ Hrun].
Qed.

Section OrderValidity.
Variable occs : list (string * EventInstanceEntry).
Variable travel : gmap (string * string) Z.
Variable buffer_arg : option Z.
Let self := init occs travel buffer_arg.
Variable out : EngineResult.
Hypothesis Hdict : NoDup occs.*1.

Lemma extract_extraction_sorted : extraction_sorted self out (extract self out).
Proof.
  split; [reflexivity|]. intros d l Hl.
  apply schedule_Some in Hl as [-> _]. cbn zeta.
  change (filter (λ k, day (occ self k) = d) (chosen_occurrences (extract self out)))
    with (todays self out d).
  rewrite ordered_predecessor by done. split; [apply sorted_perm|].
  split; [apply sorted_sorted|]. intros c. apply sorted_stable.
Qed.

Lemma extract_before_respected :
  Sat self (value out) → well_formed occs travel (buffer_minutes self) →
  before_respected self out (extract self out).
Proof.
  intros Hs Hwf d l i j a b Hl Hi Hj Hact.
  apply schedule_Some in Hl as [-> _].
  pose proof (active_lt occs travel buffer_arg out Hdict Hs Hwf a b Hact) as Hab.
  destruct (Nat.lt_trichotomy i j) as [Hlt|[Heq|Hgt]]; [done| |].
  - subst j. rewrite Hi in Hj. injection Hj as ->. fold self in Hab. lia.
  - pose proof (ordered_active occs travel buffer_arg out Hdict Hs Hwf d j i b a
                  Hj Hi Hgt) as Hba.
    apply (active_lt occs travel buffer_arg out Hdict Hs Hwf) in Hba.
    fold self in Hab, Hba. lia.
Qed.
End OrderValidity.

(** C7, as amended.  For every raw engine assignment, extraction takes
    chosen = the keys with select > 0.5 and lists each day's chosen
    occurrences in the stable ascending sort by predecessor count (a
    permutation of that day's chosen occurrences, ties in key order).  The
    list is consistent with every active before relation when the
    assignment satisfies the model's constraints and the data is
    well-formed (start < end, travel times and buffer not negative). *)
Theorem extraction_order_valid occs travel buffer_arg engine r
    (self := init occs travel buffer_arg) (out := engine (prob self)) :
  NoDup occs.*1 →
  run engine (optimize self) = Returned r →
  extraction_sorted self out r
  ∧ (feasible (prob self) (value out) →
     well_formed occs travel (buffer_minutes self) →
     before_respected self out r).
Proof.
  intros Hnd Hrun. rewrite run_optimize in Hrun. injection Hrun as <-.
  split; [by apply extract_extraction_sorted|].
  intros Hf Hwf. apply extract_before_respected; [done| |done].
  by apply feasible_Sat.
Qed.

(** C7, witness: the two visits of [two_occs]. *)
Lemma extraction_order_valid_two_visits :
  schedule (extract two_self two_out) !! 0 = Some ["a"; "b"]
  ∧ extraction_sorted two_self two_out (extract two_self two_out)
  ∧ before_respected two_self two_out (extract two_self two_out).
Proof.
  split; [vm_compute; reflexivity|].
  destruct (extraction_order_valid two_occs two_travel None (λ _, two_out)
              (extract two_self two_out) two_NoDup eq_refl) as [Hsorted Hbefore].
  split; [exact Hsorted|].
  exact (Hbefore two_feasible two_well_formed).
Defined.

(** C7, counterexample to the claim as stated (every raw assignment):
    in the engine's optimum for [cyc_occs] the relation before[c, a] is
    active, and the extracted list [a; b; c] puts "c" after "a". *)
Lemma cyclic_optimum_breaks_order :
  run (λ _, cyc_out) (optimize cyc_self) = Returned (extract cyc_self cyc_out)
  ∧ schedule (extract cyc_self cyc_out) !! 0 = Some ["a"; "b"; "c"]
  ∧ active cyc_self cyc_out "c" "a" = true
  ∧ ¬ before_respected cyc_self cyc_out (extract cyc_self cyc_out).
Proof.
  split; [reflexivity|]. split; [vm_compute; reflexivity|].
  split; [vm_compute; reflexivity|]. intros Hb.
  assert (Hlt : (2 < 0)%nat); [|lia].
  apply (Hb 0 ["a"; "b"; "c"] 2%nat 0%nat "c" "a");
    [vm_compute; reflexivity|done|done|vm_compute; reflexivity].
Qed.

Section Directions.
Variable occs : list (string * EventInstanceEntry).
Variable travel : gmap (string * string) Z.
Variable buffer_arg : option Z.
Let self := init occs travel buffer_arg.
Hypothesis Hdict : NoDup occs.*1.

Lemma canonical_pairs_spec k m :
  (k, m) ∈ canonical_pairs self
  ↔ (k, m) ∈ same_day_pairs self ∧ String.ltb k m = true.
Proof.
  unfold canonical_pairs. rewrite list_elem_of_filter. cbn [fst snd]. split.
  - tauto.
  - intros [Hp Hlt]. split; [|done]. split; [done|].
    apply elem_of_same_day_pairs in Hp; [|done]. tauto.
Qed.

Lemma canonical_orientation k m :
  (k, m) ∈ same_day_pairs self →
  ((k, m) ∈ canonical_pairs self ∧ (m, k) ∉ canonical_pairs self)
  ∨ ((m, k) ∈ canonical_pairs self ∧ (k, m) ∉ canonical_pairs self).
Proof.
  intros Hkm. pose proof (same_day_pairs_sym _ _ _ _ _ Hdict Hkm) as Hmk.
  assert (Hne : k ≠ m).
  { apply elem_of_same_day_pairs in Hkm; [|done]. tauto. }
  rewrite !canonical_pairs_spec.
  destruct (string_lt_total k m Hne) as [[Hlt Hnlt]|[Hlt Hnlt]]; [left|right].
  - split; [done|]. intros [_ Hlt']. congruence.
  - split; [done|]. intros [_ Hlt']. congruence.
Qed.

Lemma pairs_symmetric_init : pairs_symmetric self.
Proof.
  intros k m Hk Hm Hne Hday. split.
  - by apply elem_of_same_day_pairs.
  - apply elem_of_same_day_pairs; [done|]. repeat split; done.
Qed.

Lemma canonical_only_init : canonical_only self.
Proof.
  split; [apply canonical_pairs_spec|]. split; [apply canonical_orientation|].
  intros c. unfold one_direction. rewrite list_elem_of_bind. split.
  - intros ([k m] & Hc & Hp). apply canonical_pairs_spec in Hp as [Hp Hlt].
    exists (k, m). split; [done|]. split; [done|].
    apply elem_of_cons in Hc as [->|Hc]; [by left|].
    apply elem_of_cons in Hc as [->|Hc]; [by right|]. by apply elem_of_nil in Hc.
  - intros ([k m] & Hp & Hlt & Hc). exists (k, m).
    split; [|by apply canonical_pairs_spec].
    destruct Hc as [->| ->]; [left|right; left].
Qed.

Variable val : LpVariable → Q.
Hypothesis Hsat : Sat self val.

Lemma direction_resolved_Sat : direction_resolved self val.
Proof.
  intros k m Hkm. pose proof (same_day_pairs_sym _ _ _ _ _ Hdict Hkm) as Hmk.
  apply elem_of_same_day_pairs in Hkm as Hkeys; [|done].
  destruct Hkeys as (Hk & Hm & _).
  pose proof (sat_x _ _ Hsat k Hk) as Hbk. pose proof (sat_x _ _ Hsat m Hm) as Hbm.
  pose proof (sat_y _ _ Hsat _ Hkm) as Hbkm. pose proof (sat_y _ _ Hsat _ Hmk) as Hbmk.
  destruct (sat_link _ _ Hsat _ Hkm) as [Hl1 Hl2].
  destruct (sat_link _ _ Hsat _ Hmk) as [Hl3 Hl4].
  cbn [fst snd] in *.
  assert (Hdir : (val (x_ k) + val (x_ m) - 1 <= val (y_ k m) + val (y_ m k)
                  ∧ val (y_ k m) + val (y_ m k) <= 1)%Q).
  { destruct (canonical_orientation k m Hkm) as [[Hcan _]|[Hcan _]];
      destruct (sat_direction _ _ Hsat _ Hcan) as [Hge Hle];
      cbn [fst snd] in *; split; lra. }
  destruct Hdir as [Hge Hle]. unfold binary in *. split.
  - intros [Hxk Hxm]. destruct Hbkm, Hbmk; [lra|right|left|lra]; split; lra.
  - intros Hnot.
    assert (Hzero : (val (y_ k m) == 0 ∧ val (y_ m k) == 0)%Q).
    { destruct Hbk as [Hxk|Hxk]; [destruct Hbkm, Hbmk; split; lra|].
      destruct Hbm as [Hxm|Hxm]; [destruct Hbkm, Hbmk; split; lra|].
      exfalso. apply Hnot. done. }
    destruct Hzero as [Hz1 Hz2]. split; [|done]. intros [Ho _]. lra.
Qed.
End Directions.

(** C8.  For every assignment satisfying the model's constraints and every
    same-day pair k, m: if both are selected, exactly one of before[k,m],
    before[m,k] is 1; if at most one is selected, at most one direction is
    active (indeed both are 0).  The pair set holds both orientations of
    every two different same-day keys, and the one-direction constraints
    are generated only for the orientation whose first key is the smaller
    string. *)
Theorem one_direction_between_selected occs travel buffer_arg val
    (self := init occs travel buffer_arg) :
  NoDup occs.*1 →
  feasible (prob self) val →
  direction_resolved self val ∧ pairs_symmetric self ∧ canonical_only self.
Proof.
  intros Hnd Hf. apply feasible_Sat in Hf. split; [|split].
  - by apply direction_resolved_Sat.
  - by apply pairs_symmetric_init.
  - by apply canonical_only_init.
Qed.

(** C8, witness: the model of [two_occs] with "a" ordered before "b". *)
Lemma one_direction_two_visits :
  same_day_pairs two_self = [("a", "b"); ("b", "a")]
  ∧ canonical_pairs two_self = [("a", "b")]
  ∧ direction_resolved two_self two_val
  ∧ pairs_symmetric two_self ∧ canonical_only two_self.
Proof.
  split; [vm_compute; reflexivity|]. split; [vm_compute; reflexivity|].
  apply (one_direction_between_selected two_occs two_travel None two_val).
  - apply two_NoDup.
  - apply two_feasible.
Defined.

(** C9.  The travel time of a pair is the entry of the travel matrix for
    the directed pair (location of k, location of m) when there is one, and
    0 when there is none; without a buffer argument the buffer is 60
    minutes; and this travel time and buffer are what the time constraint
    of the pair evaluates. *)
Theorem travel_and_buffer_defaults occs travel buffer_arg k m val
    (self := init occs travel buffer_arg) :
  (travel !! (loc (occ self k), loc (occ self m)) = None →
   travel_time self k m = 0)
  ∧ (∀ minutes, travel !! (loc (occ self k), loc (occ self m)) = Some minutes →
       travel_time self k m = minutes)
  ∧ buffer_minutes (init occs travel None) = 60
  ∧ (∀ b, buffer_minutes (init occs travel (Some b)) = b)
  ∧ (holds val (time_constraint self (k, m))
     ↔ (inject_Z (end_ (occ self k) + travel_time self k m + buffer_minutes self)
        - inject_Z (M self) * (1 - val (y_ k m))
        <= inject_Z (start (occ self m)))%Q).
Proof.
  split; [|split; [|split; [|split]]].
  - intros Hnone. unfold travel_time. cbn [travel_distances self init].
    by rewrite Hnone.
  - intros minutes Hsome. unfold travel_time. cbn [travel_distances self init].
    by rewrite Hsome.
  - reflexivity.
  - reflexivity.
  - reflexivity.
Qed.

(** C9, witness on the sample data of the source: A to B takes 25 minutes;
    with the entry for (B, A) removed that direction takes 0 while A to B
    still takes 25; the default buffer is 60. *)
Lemma travel_and_buffer_sample :
  travel_time sample_self "E1_Mon_9" "E2_Mon_10" = 25
  ∧ travel_time (init sample_occs (delete ("B", "A") sample_travel) None)
      "E2_Mon_10" "E1_Mon_9" = 0
  ∧ travel_time (init sample_occs (delete ("B", "A") sample_travel) None)
      "E1_Mon_9" "E2_Mon_10" = 25
  ∧ buffer_minutes sample_self = 60.
Proof.
  destruct (travel_and_buffer_defaults sample_occs sample_travel None
              "E1_Mon_9" "E2_Mon_10" sample_val) as (_ & Hentry & Hbuffer & _).
  destruct (travel_and_buffer_defaults sample_occs
              (delete ("B", "A") sample_travel) None
              "E2_Mon_10" "E1_Mon_9" sample_val) as (Habsent & _).
  destruct (travel_and_buffer_defaults sample_occs
              (delete ("B", "A") sample_travel) None
              "E1_Mon_9" "E2_Mon_10" sample_val) as (_ & Hkept & _).
  split; [|split; [|split]].
  - apply Hentry. vm_compute. reflexivity.
  - apply Habsent. vm_compute. reflexivity.
  - apply Hkept. vm_compute. reflexivity.
  - exact Hbuffer.
Defined.

(** C10.  For every result returned by optimize, the schedule has an entry
    for day d exactly when a chosen occurrence falls on d; every list
    schedule[d] is non-empty and holds exactly the chosen occurrences of
    day d. *)
Theorem schedule_lists_chosen_by_day occs travel buffer_arg engine r
    (self := init occs travel buffer_arg) :
  run engine (optimize self) = Returned r →
  schedule_partitions_chosen self r.
Proof.
  intros Hrun. rewrite run_optimize in Hrun. injection Hrun as <-.
  intros d. split; [apply schedule_is_Some|].
  intros l Hl. apply schedule_Some in Hl as [-> Hne]. split; [done|].
  split; [apply ordered_perm|]. intros k. rewrite ordered_perm.
  rewrite elem_of_todays. cbn [chosen_occurrences extract]. tauto.
Qed.

(** C10, witness on the sample data of the source. *)
Lemma schedule_lists_chosen_sample :
  schedule (extract sample_self sample_out) !! 0
  = Some ["E2_Mon_10"; "E1_Mon_17"]
  ∧ schedule (extract sample_self sample_out) !! 1 = Some ["E3_Tue_12"]
  ∧ schedule_partitions_chosen sample_self (extract sample_self sample_out).
Proof.
  split; [vm_compute; reflexivity|]. split; [vm_compute; reflexivity|].
  apply (schedule_lists_chosen_by_day sample_occs sample_travel None
           (λ _, sample_out)).
  reflexivity.
Defined.

(** * Further properties of the optimizer *)

(** X1.  For every catalogue (well-formed or not) and every Optimal result,
    two different chosen occurrences of one day are compatible in at least
    one order: one of them starts no earlier than the end of the other plus
    travel plus buffer. *)
Theorem chosen_same_day_compatible occs travel buffer_arg engine r k m
    (self := init occs travel buffer_arg) :
  NoDup occs.*1 →
  engine_contract (prob self) (engine (prob self)) →
  run engine (optimize self) = Returned r →
  status r = Optimal →
  k ∈ chosen_occurrences r → m ∈ chosen_occurrences r → k ≠ m →
  day (occ self k) = day (occ self m) →
  earliest_next self k m ≤ start (occ self m)
  ∨ earliest_next self m k ≤ start (occ self k).
Proof.
  intros Hnd Hc Hrun Hst Hk Hm Hne Hday.
  rewrite run_optimize in Hrun. injection Hrun as <-.
  destruct (optimal_Sat _ _ Hc Hst) as [Hs _].
  set (out := engine (prob self)) in *.
  assert (Hk' : k ∈ todays self out (day (occ self k))) by by apply elem_of_todays.
  assert (Hm' : m ∈ todays self out (day (occ self k))) by by apply elem_of_todays.
  destruct (active_total occs travel buffer_arg out Hnd Hs _ k m Hk' Hm' Hne)
    as [Hact|Hact]; [left|right];
    by apply (active_gap occs travel buffer_arg out Hs).
Qed.

(** X1, witness: in the malformed catalogue [cyc_occs] the chosen "a" and
    "c" are compatible in the order c, a. *)
Lemma chosen_same_day_compatible_cyc :
  earliest_next cyc_self "a" "c" ≤ start (occ cyc_self "c")
  ∨ earliest_next cyc_self "c" "a" ≤ start (occ cyc_self "a").
Proof.
  apply (chosen_same_day_compatible cyc_occs ∅ (Some 0) (λ _, cyc_out)
           (extract cyc_self cyc_out)).
  - compute_done.
  - apply cyc_contract.
  - reflexivity.
  - reflexivity.
  - compute_done.
  - compute_done.
  - done.
  - reflexivity.
Defined.

(** X2.  The big-M constraint of a pair: with the ordering variable at 1
    it is exactly the gap requirement, and with the variable at 0 it holds
    exactly when the requirement misses by at most M. *)
Theorem time_constraint_semantics self val k m :
  ((val (y_ k m) == 1)%Q →
   (holds val (time_constraint self (k, m))
    ↔ earliest_next self k m ≤ start (occ self m)))
  ∧ ((val (y_ k m) == 0)%Q →
     (holds val (time_constraint self (k, m))
      ↔ earliest_next self k m - start (occ self m) ≤ M self)).
Proof.
  split.
  - intros Hy. unfold holds, time_constraint, earliest_next. cbn. rewrite Hy.
    rewrite Zle_Qle. change (inject_Z 1) with 1%Q. split; intros Hle; lra.
  - intros Hy. apply (time_constraint_relaxed self val (k, m) Hy).
Qed.

(** X3.  When some same-day pair misses its gap requirement by more than
    M = 1440 minutes, no 0/1 valuation satisfies the model, so no run of
    optimize has status Optimal, whichever occurrences could be chosen. *)
Theorem oversized_gap_never_optimal occs travel buffer_arg engine r k m
    (self := init occs travel buffer_arg) :
  (k, m) ∈ same_day_pairs self →
  M self < earliest_next self k m - start (occ self m) →
  engine_contract (prob self) (engine (prob self)) →
  run engine (optimize self) = Returned r →
  (∀ val, ¬ feasible (prob self) val) ∧ status r ≠ Optimal.
Proof.
  intros Hp Hbig Hc Hrun.
  assert (Hinf : ∀ val, ¬ feasible (prob self) val).
  { intros val Hs%feasible_Sat.
    pose proof (sat_time _ _ Hs _ Hp) as Ht. cbn [fst snd] in Ht.
    assert (Hq : (inject_Z (M self)
                  < inject_Z (earliest_next self k m - start (occ self m)))%Q)
      by by rewrite <-Zlt_Qlt.
    unfold Z.sub in Hq. rewrite inject_Z_plus, inject_Z_opp in Hq.
    unfold earliest_next in Hq.
    change (inject_Z (M self)) with (1440 # 1)%Q in *.
    destruct (sat_y _ _ Hs _ Hp) as [Hy|Hy]; cbn [fst snd] in Hy;
      rewrite Hy in Ht; lra. }
  split; [done|]. rewrite run_optimize in Hrun. injection Hrun as <-.
  intros Hst. destruct (Hc Hst) as [Hf _]. by apply (Hinf _ Hf).
Qed.

(** X3, witness: the late and the early visit of [late_occs]. *)
Lemma oversized_gap_late_early :
  (∀ val, ¬ feasible (prob late_self) val)
  ∧ status (extract late_self {| value := λ _, 0%Q; lp_status := Infeasible |})
    ≠ Optimal.
Proof.
  apply (oversized_gap_never_optimal late_occs ∅ None
           (λ _, {| value := λ _, 0%Q; lp_status := Infeasible |})
           _ "late" "early").
  - compute_done.
  - by vm_compute.
  - intros [=].
  - reflexivity.
Defined.

Lemma length_filter_mono {A} (P Q : A → Prop) `{!∀ x, Decision (P x)}
    `{!∀ x, Decision (Q x)} (l : list A) :
  (∀ x, x ∈ l → P x → Q x) →
  (length (filter P l) ≤ length (filter Q l))%nat.
Proof.
  induction l as [|a l IH]; intros Himp; [done|].
  assert (IH' : (length (filter P l) ≤ length (filter Q l))%nat).
  { apply IH. intros x Hx. apply Himp, elem_of_cons. by right. }
  assert (Ha : P a → Q a) by (apply Himp, elem_of_cons; by left).
  rewrite !filter_cons. repeat case_decide; simpl; try lia. tauto.
Qed.

(** X4.  For every result of optimize neither the number of schedule keys
    nor days_used exceeds the number of distinct days of the catalogue; and
    when the values left by the engine satisfy the constraints, every day
    of the schedule is counted in days_used. *)
Theorem schedule_days_bounded occs travel buffer_arg engine r
    (self := init occs travel buffer_arg) (out := engine (prob self)) :
  run engine (optimize self) = Returned r →
  (size (schedule r) ≤ length (days self))%nat
  ∧ (days_used r ≤ length (days self))%nat
  ∧ (feasible (prob self) (value out) → (size (schedule r) ≤ days_used r)%nat).
Proof.
  intros Hrun. rewrite run_optimize in Hrun. injection Hrun as <-.
  rewrite days_used_length. cbn [schedule extract].
  rewrite schedule_size by apply NoDup_days.
  split; [apply length_filter|]. split; [apply length_filter|].
  intros Hs%feasible_Sat. apply length_filter_mono. intros d Hd Hne.
  rewrite ordered_nil in Hne.
  destruct (todays self out d) as [|k ks] eqn:Ht; [done|].
  assert (Hin : k ∈ todays self out d) by (rewrite Ht; left).
  apply elem_of_todays in Hin as [Hday [Hg Hk]%elem_of_chosen].
  apply gt_half_spec in Hg. apply gt_half_spec.
  pose proof (sat_day _ _ Hs d k Hd Hk Hday) as Hle. fold out. lra.
Qed.

(** X4, witness: the sample data with the valuation [sample_val]. *)
Lemma schedule_days_bounded_sample :
  length (days sample_self) = 4%nat
  ∧ (size (schedule (extract sample_self sample_out)) ≤ 4)%nat
  ∧ (days_used (extract sample_self sample_out) ≤ 4)%nat
  ∧ (size (schedule (extract sample_self sample_out))
     ≤ days_used (extract sample_self sample_out))%nat.
Proof.
  split; [reflexivity|].
  destruct (schedule_days_bounded sample_occs sample_travel None
              (λ _, sample_out) (extract sample_self sample_out) eq_refl)
    as (Hsize & Hused & Hfeasible).
  split; [exact Hsize|]. split; [exact Hused|]. exact (Hfeasible sample_feasible).
Defined.

(** X5.  On an empty catalogue optimize submits a problem without
    variables and without constraints, which every valuation minimises, and
    returns no chosen occurrence, an empty schedule and days_used = 0 with
    the status of the engine, whatever values the engine reports. *)
Theorem empty_catalogue_result travel buffer_arg engine
    (self := init [] travel buffer_arg) :
  variables (prob self) = []
  ∧ constraints (prob self) = []
  ∧ (∀ val, optimal (prob self) val)
  ∧ run engine (optimize self)
    = Returned {| schedule := ∅; days_used := 0; chosen_occurrences := [];
                  status := lp_status (engine (prob self)) |}.
Proof.
  split; [reflexivity|]. split; [reflexivity|]. split; [|reflexivity].
  intros val. split.
  - split; constructor.
  - intros val' _. cbn. lra.
Qed.

(** Concatenating the per-day sublists over all days gives the list back,
    up to order. *)
Lemma concat_by_day {A} (dayof : A → Z) (l : list A) (ds : list Z) :
  NoDup ds → (∀ a, a ∈ l → dayof a ∈ ds) →
  concat ((λ d, filter (λ a, dayof a = d) l) <$> ds) ≡ₚ l.
Proof.
  intros Hnd. revert l. induction Hnd as [|d ds Hd Hnd IH]; intros l Hin.
  - destruct l as [|a l]; [done|].
    exfalso. apply (elem_of_nil (dayof a)). apply Hin. left.
  - rewrite fmap_cons. cbn [concat].
    etrans; [|apply (filter_app_complement (λ a, dayof a = d) l)].
    apply Permutation_app; [done|].
    rewrite <-(IH (filter (λ a, ¬ dayof a = d) l)).
    + apply reflexive_eq. f_equal. apply list_fmap_ext.
      intros i d' Hd'%list_elem_of_lookup_2.
      rewrite list_filter_filter. apply list_filter_iff. intros a.
      split; [|tauto]. intros ->. split; [done|]. by intros ->.
    + intros a [Hne Ha]%list_elem_of_filter.
      specialize (Hin a Ha). apply elem_of_cons in Hin as [?|?]; done.
Qed.

Lemma concat_fmap_perm {A B} (f g : A → list B) (l : list A) :
  (∀ a, f a ≡ₚ g a) → concat (f <$> l) ≡ₚ concat (g <$> l).
Proof.
  intros Hfg. induction l as [|a l IH]; [done|].
  rewrite !fmap_cons. cbn [concat]. by rewrite Hfg, IH.
Qed.

Lemma concat_fmap_nonempty {A B} (f : A → list B) (l : list A) :
  concat (f <$> filter (λ a, f a ≠ []) l) = concat (f <$> l).
Proof.
  induction l as [|a l IH]; [done|].
  rewrite filter_cons, fmap_cons. cbn [concat]. case_decide as Hne.
  - rewrite fmap_cons. cbn [concat]. by rewrite IH.
  - by rewrite Hne, IH.
Qed.

(** The schedule as a list of entries, up to order. *)
Lemma schedule_entries self out :
  NoDup (days self) →
  map_to_list (build_schedule self out)
  ≡ₚ (λ d, (d, ordered self out d))
       <$> filter (λ d, ordered self out d ≠ []) (days self).
Proof.
  intros Hnd. apply NoDup_Permutation.
  - apply NoDup_map_to_list.
  - apply NoDup_fmap_2; [intros ?? [=]; done|]. by apply NoDup_filter.
  - intros [d l]. rewrite elem_of_map_to_list, schedule_lookup, list_elem_of_fmap.
    split.
    + case_decide as Hd; [|done]. intros [= <-]. exists d. split; [done|].
      apply list_elem_of_filter. tauto.
    + intros (d' & [= -> ->] & [Hne Hd']%list_elem_of_filter).
      by rewrite decide_True.
Qed.

(** The lists of the schedule together are a rearrangement of the chosen
    occurrences. *)
Lemma schedule_concat_chosen occs travel buffer_arg out
    (self := init occs travel buffer_arg) :
  concat (map_to_list (build_schedule self out)).*2 ≡ₚ chosen self out.
Proof.
  rewrite (schedule_entries self out) by apply NoDup_days.
  rewrite <-list_fmap_compose.
  change (snd ∘ (λ d, (d, ordered self out d))) with (ordered self out).
  rewrite concat_fmap_nonempty.
  rewrite (concat_fmap_perm _ (todays self out)) by apply ordered_perm.
  apply concat_by_day; [apply NoDup_days|].
  intros k [_ Hk]%elem_of_chosen. by apply day_in_days.
Qed.

(** X6.  The chosen occurrences are a duplicate-free subsequence of the
    catalogue keys in their original order, and the per-day lists of the
    schedule together hold every chosen occurrence exactly once. *)
Theorem schedule_holds_chosen_once occs travel buffer_arg engine r
    (self := init occs travel buffer_arg) :
  NoDup occs.*1 →
  run engine (optimize self) = Returned r →
  chosen_occurrences r `sublist_of` occs.*1
  ∧ NoDup (chosen_occurrences r)
  ∧ concat (map_to_list (schedule r)).*2 ≡ₚ chosen_occurrences r.
Proof.
  intros Hnd Hrun. rewrite run_optimize in Hrun. injection Hrun as <-.
  split; [apply sublist_filter|]. split; [by apply NoDup_chosen|].
  apply schedule_concat_chosen.
Qed.

(** X6, witness on the sample data. *)
Lemma schedule_holds_chosen_once_sample :
  chosen_occurrences (extract sample_self sample_out)
  = ["E1_Mon_17"; "E2_Mon_10"; "E3_Tue_12"]
  ∧ chosen_occurrences (extract sample_self sample_out) `sublist_of` sample_occs.*1
  ∧ NoDup (chosen_occurrences (extract sample_self sample_out))
  ∧ concat (map_to_list (schedule (extract sample_self sample_out))).*2
    ≡ₚ chosen_occurrences (extract sample_self sample_out).
Proof.
  split; [vm_compute; reflexivity|].
  apply (schedule_holds_chosen_once sample_occs sample_travel None (λ _, sample_out)).
  - compute_done.
  - reflexivity.
Defined.

Lemma StronglySorted_from_lookup {A} (R : relation A) (l : list A) :
  (∀ i j a b, l !! i = Some a → l !! j = Some b → (i < j)%nat → R a b) →
  StronglySorted R l.
Proof.
  induction l as [|x l IH]; intros Hlt; constructor.
  - apply IH. intros i j a b Hi Hj Hij. apply (Hlt (S i) (S j)); [done..|lia].
  - apply Forall_forall. intros y [j Hj]%list_elem_of_lookup_1.
    apply (Hlt 0%nat (S j)); [done..|lia].
Qed.

(** X7.  On well-formed data every per-day list of an Optimal result is in
    strictly increasing order of start time: the order of a day is fixed by
    which occurrences are chosen, not by the engine's ordering values. *)
Theorem optimal_schedule_chronological occs travel buffer_arg engine r d l
    (self := init occs travel buffer_arg) :
  NoDup occs.*1 →
  well_formed occs travel (buffer_minutes self) →
  engine_contract (prob self) (engine (prob self)) →
  run engine (optimize self) = Returned r →
  status r = Optimal →
  schedule r !! d = Some l →
  StronglySorted (λ a b, start (occ self a) < start (occ self b)) l.
Proof.
  intros Hnd Hwf Hc Hrun Hst Hl. rewrite run_optimize in Hrun. injection Hrun as <-.
  destruct (optimal_Sat _ _ Hc Hst) as [Hs _].
  apply schedule_Some in Hl as [-> _].
  apply StronglySorted_from_lookup. intros i j a b Hi Hj Hij.
  apply (active_lt occs travel buffer_arg (engine (prob self)) Hnd Hs Hwf).
  by apply (ordered_active occs travel buffer_arg _ Hnd Hs Hwf d i j).
Qed.

(** X7, witness: the two visits of [two_occs]. *)
Lemma optimal_schedule_chronological_two_visits :
  StronglySorted (λ a b, start (occ two_self a) < start (occ two_self b))
                 ["a"; "b"].
Proof.
  apply (optimal_schedule_chronological two_occs two_travel None (λ _, two_out)
           (extract two_self two_out) 0).
  - apply two_NoDup.
  - apply two_well_formed.
  - apply two_contract.
  - reflexivity.
  - reflexivity.
  - vm_compute. reflexivity.
Defined.

(** X8.  [__t] packs a day, an hour below 24 and a minute below 60 into
    absolute minutes without loss: the result lies inside the day's span of
    1440 minutes, and day, hour and minute are recovered by division. *)
Theorem absolute_minutes_decode occs travel buffer_arg d hh mm
    (self := init occs travel buffer_arg) :
  0 ≤ hh < 24 → 0 ≤ mm < 60 →
  d * 1440 ≤ Optimizer_t self d hh mm < (d + 1) * 1440
  ∧ Optimizer_t self d hh mm `div` 1440 = d
  ∧ (Optimizer_t self d hh mm `mod` 1440) `div` 60 = hh
  ∧ Optimizer_t self d hh mm `mod` 60 = mm.
Proof.
  intros Hhh Hmm. unfold Optimizer_t. cbn [H self init].
  assert (Hday : (d * 24 * 60 + hh * 60 + mm) `div` 1440 = d).
  { symmetry. apply (Z.div_unique _ _ d (hh * 60 + mm)); lia. }
  assert (Hrem : (d * 24 * 60 + hh * 60 + mm) `mod` 1440 = hh * 60 + mm).
  { symmetry. apply (Z.mod_unique _ _ d (hh * 60 + mm)); lia. }
  split; [lia|]. split; [done|]. rewrite Hrem. split.
  - symmetry. apply (Z.div_unique _ _ hh mm); lia.
  - symmetry. apply (Z.mod_unique _ _ (d * 24 + hh) mm); lia.
Qed.

(** X8, witness: Wednesday 16:00 of the sample data. *)
Lemma absolute_minutes_decode_wed_16 :
  Optimizer_t sample_self 2 16 0 = t 2 16
  ∧ 2 * 1440 ≤ Optimizer_t sample_self 2 16 0 < (2 + 1) * 1440
  ∧ Optimizer_t sample_self 2 16 0 `div` 1440 = 2
  ∧ (Optimizer_t sample_self 2 16 0 `mod` 1440) `div` 60 = 16
  ∧ Optimizer_t sample_self 2 16 0 `mod` 60 = 0.
Proof.
  split; [reflexivity|].
  apply (absolute_minutes_decode sample_occs sample_travel None 2 16 0); lia.
Defined.

(** * Printing a schedule *)

Lemma getitem_is_Some occs k : is_Some (getitem occs k) ↔ k ∈ occs.*1.
Proof.
  split.
  - induction occs as [|[k' e'] occs IH]; simpl; [by intros [? ?]|].
    case_decide as Hk; [subst; intros _; left|]. intros Hs. right. by apply IH.
  - intros (e & He & _)%getitem_key. by exists e.
Qed.

Lemma printed_keys_app l1 l2 :
  printed_keys (l1 ++ l2) = printed_keys l1 ++ printed_keys l2.
Proof. apply omap_app. Qed.

Lemma printed_days_app l1 l2 :
  printed_days (l1 ++ l2) = printed_days l1 ++ printed_days l2.
Proof. apply omap_app. Qed.

(** The inner loop runs to its end exactly when every key is a key of the
    catalogue; it then prints one occurrence line per key, in order. *)
Lemma print_occurrences_spec self ks lines ok :
  print_occurrences self ks = (lines, ok) →
  (ok = true ↔ ∀ k, k ∈ ks → k ∈ (occurrences self).*1)
  ∧ printed_days lines = []
  ∧ (ok = true → printed_keys lines = ks).
Proof.
  revert lines ok. induction ks as [|k ks IH]; intros lines ok; simpl.
  - intros [= <- <-]. split; [|done]. split; [|done].
    intros _ k' Hk'. by apply elem_of_nil in Hk'.
  - destruct (getitem (occurrences self) k) as [o|] eqn:Ho.
    + destruct (print_occurrences self ks) as [lines' ok'] eqn:Hrec.
      intros [= <- <-]. destruct (IH _ _ eq_refl) as (Hok & Hdays & Hkeys).
      split; [|split].
      * rewrite Hok. split.
        -- intros Hall k' [->|Hk']%elem_of_cons; [|by apply Hall].
           apply getitem_is_Some. by rewrite Ho.
        -- intros Hall k' Hk'. apply Hall. by right.
      * done.
      * intros Hok'. cbn. f_equal. by apply Hkeys.
    + intros [= <- <-]. split; [|done]. split; [done|].
      intros Hall. assert (Hs : is_Some (getitem (occurrences self) k)).
      { apply getitem_is_Some, Hall. left. }
      rewrite Ho in Hs. by destruct Hs.
Qed.

Lemma print_days_spec self sched ds lines ok :
  print_days self sched ds = (lines, ok) →
  (ok = true ↔ ∀ d k, d ∈ ds → k ∈ default [] (sched !! d) →
                      k ∈ (occurrences self).*1)
  ∧ (ok = true →
     printed_days lines = ds
     ∧ printed_keys lines = concat ((λ d, default [] (sched !! d)) <$> ds)).
Proof.
  revert lines ok. induction ds as [|d ds IH]; intros lines ok; simpl.
  - intros [= <- <-]. split; [|done]. split; [|done].
    intros _ d k Hd. by apply elem_of_nil in Hd.
  - destruct (print_occurrences self (default [] (sched !! d))) as [l1 ok1] eqn:H1.
    destruct (print_occurrences_spec _ _ _ _ H1) as (Hok1 & Hdays1 & Hkeys1).
    destruct ok1.
    + destruct (print_days self sched ds) as [l2 ok2] eqn:H2.
      destruct (IH _ _ eq_refl) as (Hok2 & Hout2).
      intros [= <- <-]. split.
      * rewrite Hok2. split.
        -- intros Hall d' k [->|Hd']%elem_of_cons Hk; [by apply Hok1|].
           by apply (Hall d').
        -- intros Hall d' k Hd' Hk. apply (Hall d'); [by right|done].
      * intros Hok. destruct (Hout2 Hok) as [Hd2 Hk2]. split.
        -- cbn. rewrite printed_days_app, Hdays1, Hd2. done.
        -- change (printed_keys (PrintDay d :: l1 ++ l2))
             with (printed_keys (l1 ++ l2)).
           rewrite printed_keys_app, Hkeys1, Hk2 by done. done.
    + intros [= <- <-]. split; [|done]. split; [done|].
      intros Hall. apply Hok1. intros k Hk. apply (Hall d); [left|done].
Qed.

Lemma sorted_keys_increasing (sched : gmap Z (list string)) :
  StronglySorted Z.lt (merge_sort Z.le (map_to_list sched).*1).
Proof.
  assert (Hnd : NoDup (merge_sort Z.le (map_to_list sched).*1)).
  { rewrite merge_sort_Permutation. apply NoDup_fst_map_to_list. }
  assert (Hs : StronglySorted Z.le (merge_sort Z.le (map_to_list sched).*1))
    by apply (StronglySorted_merge_sort Z.le).
  revert Hnd Hs. generalize (merge_sort Z.le (map_to_list sched).*1) as l.
  induction l as [|x l IH]; intros Hnd Hs; [constructor|].
  apply NoDup_cons in Hnd as [Hx Hnd]. apply StronglySorted_inv in Hs as [Hs Hall].
  constructor; [by apply IH|]. apply Forall_forall. intros y Hy.
  eapply Forall_forall in Hall; [|exact Hy].
  assert (x ≠ y) by (intros ->; done). lia.
Qed.

Lemma lookup_entries (sched : gmap Z (list string)) :
  (λ d, default [] (sched !! d)) <$> (map_to_list sched).*1
  = (map_to_list sched).*2.
Proof.
  rewrite <-list_fmap_compose. apply list_fmap_ext.
  intros i [d l] Hin%list_elem_of_lookup_2. apply elem_of_map_to_list in Hin.
  simpl. by rewrite Hin.
Qed.

Lemma concat_fmap_Permutation {A B} (f : A → list B) (l1 l2 : list A) :
  l1 ≡ₚ l2 → concat (f <$> l1) ≡ₚ concat (f <$> l2).
Proof. intros Hp. by rewrite Hp. Qed.

Lemma print_schedule_spec self result lines ok :
  print_schedule self result = (lines, ok) →
  (ok = true ↔ ∀ d l k, schedule result !! d = Some l → k ∈ l →
                        k ∈ (occurrences self).*1)
  ∧ (ok = true →
     StronglySorted Z.lt (printed_days lines)
     ∧ (∀ d, d ∈ printed_days lines ↔ is_Some (schedule result !! d))
     ∧ printed_keys lines ≡ₚ concat (map_to_list (schedule result)).*2).
Proof.
  unfold print_schedule.
  destruct (print_days self (schedule result) _) as [body ok'] eqn:Hbody.
  intros [= <- <-]. destruct (print_days_spec _ _ _ _ _ Hbody) as (Hok & Hout).
  split.
  - rewrite Hok. split.
    + intros Hall d l k Hl Hk. apply (Hall d k); [|by rewrite Hl].
      rewrite merge_sort_Permutation. apply list_elem_of_fmap.
      exists (d, l). split; [done|]. by apply elem_of_map_to_list.
    + intros Hall d k Hd Hk. destruct (schedule result !! d) as [l|] eqn:Hl.
      * by apply (Hall d l).
      * by apply elem_of_nil in Hk.
  - intros Hok'. destruct (Hout Hok') as [Hdays Hkeys].
    change (printed_days (_ :: _ :: _ :: body)) with (printed_days body).
    change (printed_keys (_ :: _ :: _ :: body)) with (printed_keys body).
    rewrite Hdays, Hkeys. split; [apply sorted_keys_increasing|]. split.
    + intros d. rewrite merge_sort_Permutation, list_elem_of_fmap. split.
      * intros ([d' l] & -> & Hin). apply elem_of_map_to_list in Hin. by exists l.
      * intros [l Hl]. exists (d, l). split; [done|]. by apply elem_of_map_to_list.
    + rewrite <-lookup_entries. apply concat_fmap_Permutation, merge_sort_Permutation.
Qed.

(** X9.  [print_schedule] returns without a KeyError exactly when every
    key listed in the schedule it is given is a key of the optimizer's
    occurrences.  It then prints the day headers in strictly increasing
    order, one per key of the schedule, and one occurrence line for every
    listed key. *)
Theorem print_schedule_completes self result lines ok :
  print_schedule self result = (lines, ok) →
  (ok = true ↔ ∀ d l k, schedule result !! d = Some l → k ∈ l →
                        k ∈ (occurrences self).*1)
  ∧ (ok = true →
     StronglySorted Z.lt (printed_days lines)
     ∧ (∀ d, d ∈ printed_days lines ↔ is_Some (schedule result !! d))
     ∧ printed_keys lines ≡ₚ concat (map_to_list (schedule result)).*2).
Proof. apply print_schedule_spec. Qed.

(** X9, witness: printing [stray_result] for [two_occs] stops on the key
    "x", which is no key of the catalogue. *)
Lemma print_schedule_stops_on_stray_key :
  (print_schedule two_self stray_result).2 = false
  ∧ ¬ (∀ d l k, schedule stray_result !! d = Some l → k ∈ l →
                k ∈ (occurrences two_self).*1).
Proof.
  split; [vm_compute; reflexivity|].
  destruct (print_schedule_completes two_self stray_result _ _
              (surjective_pairing _)) as [Hiff _].
  intros Hall. apply Hiff in Hall. vm_compute in Hall. discriminate Hall.
Defined.

(** X10.  Printing the result of optimize never fails: every scheduled key
    is a key of the catalogue.  The day headers come out in strictly
    increasing order, one per day of the schedule, and the occurrence
    lines list every chosen occurrence exactly once. *)
Theorem print_schedule_of_optimize occs travel buffer_arg engine r
    (self := init occs travel buffer_arg) :
  run engine (optimize self) = Returned r →
  (print_schedule self r).2 = true
  ∧ StronglySorted Z.lt (printed_days (print_schedule self r).1)
  ∧ (∀ d, d ∈ printed_days (print_schedule self r).1
          ↔ is_Some (schedule r !! d))
  ∧ printed_keys (print_schedule self r).1 ≡ₚ chosen_occurrences r.
Proof.
  intros Hrun. rewrite run_optimize in Hrun. injection Hrun as <-.
  set (out := engine (prob self)).
  destruct (print_schedule_spec self (extract self out) _ _ (surjective_pairing _))
    as [Hiff Hout].
  assert (Hok : (print_schedule self (extract self out)).2 = true).
  { apply Hiff. intros d l k Hl Hk. apply schedule_Some in Hl as [-> _].
    rewrite ordered_perm in Hk. apply elem_of_todays in Hk as [_ Hk].
    apply elem_of_chosen in Hk as [_ Hk]. exact Hk. }
  split; [exact Hok|]. destruct (Hout Hok) as (Hsorted & Hdays & Hkeys).
  split; [exact Hsorted|]. split; [exact Hdays|].
  rewrite Hkeys. apply schedule_concat_chosen.
Qed.

(** X10, witness on the sample data. *)
Lemma print_schedule_of_optimize_sample :
  printed_days (print_schedule sample_self (extract sample_self sample_out)).1
  = [0; 1]
  ∧ (print_schedule sample_self (extract sample_self sample_out)).2 = true
  ∧ printed_keys (print_schedule sample_self (extract sample_self sample_out)).1
    ≡ₚ chosen_occurrences (extract sample_self sample_out).
Proof.
  split; [vm_compute; reflexivity|].
  destruct (print_schedule_of_optimize sample_occs sample_travel None
              (λ _, sample_out) (extract sample_self sample_out) eq_refl)
    as (Hok & _ & _ & Hkeys).
  split; [exact Hok|exact Hkeys].
Defined.

(** * The request handler *)

Lemma split_comma_cons s : ∃ piece pieces, split_comma s = piece :: pieces.
Proof.
  induction s as [|c s (piece & pieces & IH)]; simpl; [by eexists _, _|].
  case_decide; [by eexists _, _|]. rewrite IH. by eexists _, _.
Qed.

Lemma split_comma_length s : length (split_comma s) = S (commas s).
Proof.
  induction s as [|c s IH]; simpl; [done|].
  case_decide; simpl; [by rewrite IH|].
  destruct (split_comma_cons s) as (piece & pieces & Hs).
  rewrite Hs in IH |- *. done.
Qed.

Lemma concat_cons2 sep (x y : string) l :
  String.concat sep (x :: y :: l)
  = (x ++ sep ++ String.concat sep (y :: l))%string.
Proof. reflexivity. Qed.

Lemma split_comma_join s : String.concat "," (split_comma s) = s.
Proof.
  induction s as [|c s IH]; simpl; [done|].
  destruct (split_comma_cons s) as (piece & pieces & Hs). rewrite Hs in IH |- *.
  case_decide as Hc.
  - subst c. rewrite concat_cons2, IH. done.
  - destruct pieces as [|piece' pieces].
    + simpl in IH |- *. by rewrite IH.
    + rewrite concat_cons2 in IH |- *. rewrite <-IH. reflexivity.
Qed.

Lemma split_comma_pieces s : Forall (λ piece, commas piece = 0%nat) (split_comma s).
Proof.
  induction s as [|c s IH]; simpl; [by repeat constructor|].
  case_decide as Hc; [by constructor|].
  destruct (split_comma_cons s) as (piece & pieces & Hs). rewrite Hs in IH |- *.
  apply Forall_cons in IH as [Hp Hps]. constructor; [|done].
  cbn [commas]. by case_decide.
Qed.

Lemma split_comma_plain s : commas s = 0%nat → split_comma s = [s].
Proof.
  induction s as [|c s IH]; simpl; [done|].
  case_decide; [done|]. intros Hs. by rewrite IH.
Qed.

Lemma split_comma_app a s :
  commas a = 0%nat → split_comma (a ++ String "," s) = a :: split_comma s.
Proof.
  induction a as [|c a IH]; simpl.
  - done.
  - case_decide; [done|]. intros Ha. by rewrite IH.
Qed.

(** Splitting at the commas loses nothing: joining the pieces with
    commas gives the string back, there is one piece more than there are
    commas, and no piece holds a comma. *)
Theorem split_comma_round_trip s :
  String.concat "," (split_comma s) = s
  ∧ length (split_comma s) = S (commas s)
  ∧ Forall (λ piece, commas piece = 0%nat) (split_comma s).
Proof.
  split; [apply split_comma_join|]. split; [apply split_comma_length|].
  apply split_comma_pieces.
Qed.

Lemma travel_key_Some key a b :
  travel_key key = Some (a, b)
  ↔ key = (a ++ String "," b)%string ∧ commas a = 0%nat ∧ commas b = 0%nat.
Proof.
  unfold travel_key. split.
  - intros Hk. pose proof (split_comma_join key) as Hj.
    pose proof (split_comma_pieces key) as Hp.
    destruct (split_comma key) as [|a' [|b' [|c' rest]]]; try done.
    injection Hk as -> ->. cbn [String.concat] in Hj.
    apply Forall_cons in Hp as [Ha [Hb _]%Forall_cons]. done.
  - intros (-> & Ha & Hb). by rewrite split_comma_app, split_comma_plain.
Qed.

Lemma travel_key_None key : travel_key key = None ↔ commas key ≠ 1%nat.
Proof.
  unfold travel_key. pose proof (split_comma_length key) as Hl.
  destruct (split_comma key) as [|a' [|b' [|c' rest]]]; simpl in Hl;
    split; try done; intros; lia.
Qed.

Lemma travel_key_inj key1 key2 p :
  travel_key key1 = Some p → travel_key key2 = Some p → key1 = key2.
Proof.
  destruct p as [a b]. intros (-> & _)%travel_key_Some (-> & _)%travel_key_Some.
  done.
Qed.

(** X11.  A travel key unpacks into (from, to) exactly when it is
    "from,to" with no comma inside either location, and is rejected
    exactly when it does not hold one comma; so two different keys never
    unpack to the same pair. *)
Theorem travel_key_unpacks key :
  (∀ a b, travel_key key = Some (a, b)
          ↔ key = (a ++ String "," b)%string
            ∧ commas a = 0%nat ∧ commas b = 0%nat)
  ∧ (travel_key key = None ↔ commas key ≠ 1%nat)
  ∧ (∀ key' p, travel_key key = Some p → travel_key key' = Some p → key = key').
Proof.
  split; [intros a b; apply travel_key_Some|].
  split; [apply travel_key_None|].
  intros key' p. apply travel_key_inj.
Qed.

Lemma foldl_travel_None items : foldl travel_step None items = None.
Proof. induction items; simpl; done. Qed.

Lemma foldl_travel_fails items m0 :
  foldl travel_step (Some m0) items = None
  ↔ ∃ key, key ∈ items.*1 ∧ travel_key key = None.
Proof.
  revert m0. induction items as [|[key v] items IH]; intros m0; simpl.
  - split; [done|]. intros (key & Hk & _). by apply elem_of_nil in Hk.
  - destruct (travel_key key) as [p|] eqn:Hp; simpl.
    + rewrite IH. split.
      * intros (key' & Hk & Hn). exists key'. split; [by right|done].
      * intros (key' & [->|Hk]%elem_of_cons & Hn); [congruence|]. eauto.
    + rewrite foldl_travel_None. split; [|done]. intros _.
      exists key. split; [left|done].
Qed.

Lemma foldl_travel_lookup items m0 m :
  NoDup items.*1 →
  foldl travel_step (Some m0) items = Some m →
  (∀ key v, (key, v) ∈ items → ∃ p, travel_key key = Some p ∧ m !! p = Some v)
  ∧ (∀ p, (∀ key, key ∈ items.*1 → travel_key key ≠ Some p) → m !! p = m0 !! p).
Proof.
  revert m0. induction items as [|[key v] items IH]; intros m0 Hnd; simpl.
  - intros [= <-]. split; [|done]. intros key v Hin. by apply elem_of_nil in Hin.
  - apply NoDup_cons in Hnd as [Hkey Hnd].
    destruct (travel_key key) as [p|] eqn:Hp; simpl;
      [|by rewrite foldl_travel_None].
    intros Hm. destruct (IH _ Hnd Hm) as [Hin Hout]. split.
    + intros key' v' [[= -> ->]|Hin']%elem_of_cons; [|by apply Hin].
      exists p. split; [done|]. rewrite Hout; [apply lookup_insert_eq|].
      intros key' Hk' Hp'. apply Hkey.
      by rewrite (travel_key_inj _ _ _ Hp Hp').
    + intros p' Hnone. rewrite Hout.
      * apply lookup_insert_ne. intros ->. apply (Hnone key); [left|done].
      * intros key' Hk'. apply Hnone. by right.
Qed.

(** X12.  Converting the travel table of a request (a dictionary, so with
    distinct keys) fails exactly when some key does not hold one comma;
    when it succeeds, the entry of (from, to) is the value the request
    gives for "from,to", there is no other entry, and no entry is lost. *)
Theorem convert_travel_lookup items :
  NoDup items.*1 →
  (convert_travel items = None ↔ ∃ key, key ∈ items.*1 ∧ commas key ≠ 1%nat)
  ∧ ∀ travel, convert_travel items = Some travel →
      (∀ a b v, travel !! (a, b) = Some v
                ↔ ((a ++ String "," b)%string, v) ∈ items
                  ∧ commas a = 0%nat ∧ commas b = 0%nat)
      ∧ size travel = length items.
Proof.
  intros Hnd. split.
  - unfold convert_travel. rewrite foldl_travel_fails.
    by setoid_rewrite travel_key_None.
  - intros travel Hc. unfold convert_travel in Hc.
    destruct (foldl_travel_lookup _ _ _ Hnd Hc) as [Hin Hout].
    assert (Hlookup : ∀ p v, travel !! p = Some v
                             ↔ ∃ key, (key, v) ∈ items ∧ travel_key key = Some p).
    { intros p v. split.
      - intros Hv.
        destruct (decide (Exists (λ item, travel_key item.1 = Some p) items))
          as [Hex|Hnex].
        + apply Exists_exists in Hex as ([key v'] & Hitem & Hp).
          destruct (Hin _ _ Hitem) as (p' & Hp' & Hv'). simpl in Hp.
          assert (p' = p) as -> by congruence.
          assert (v' = v) as -> by congruence. eauto.
        + rewrite Hout, lookup_empty in Hv; [done|].
          intros key ([key' v'] & -> & Hitem)%list_elem_of_fmap Hp.
          apply Hnex, Exists_exists. eauto.
      - intros (key & Hitem & Hp). destruct (Hin _ _ Hitem) as (p' & Hp' & Hv').
        congruence. }
    split.
    + intros a b v. rewrite Hlookup. split.
      * intros (key & Hitem & (-> & Ha & Hb)%travel_key_Some). done.
      * intros (Hitem & Ha & Hb). eexists. split; [done|].
        by apply travel_key_Some.
    + rewrite <-(length_map_to_list travel).
      rewrite <-(length_fmap (λ item, (default ("", "") (travel_key item.1), item.2))
                             items).
      apply Permutation_length, NoDup_Permutation.
      * apply NoDup_map_to_list.
      * apply NoDup_fmap_2_strong; [|by apply NoDup_fmap_1 in Hnd].
        intros [k1 v1] [k2 v2] H1 H2 [= Hk Hv]. subst v2.
        destruct (Hin _ _ H1) as (p1 & Hp1 & _).
        destruct (Hin _ _ H2) as (p2 & Hp2 & _). simpl in Hk.
        rewrite Hp1, Hp2 in Hk. simpl in Hk. subst p2.
        by rewrite (travel_key_inj _ _ _ Hp1 Hp2).
      * intros [p v]. rewrite elem_of_map_to_list, Hlookup, list_elem_of_fmap.
        split.
        -- intros (key & Hitem & Hp). exists (key, v). simpl. by rewrite Hp.
        -- intros ([key v'] & [= -> ->] & Hitem).
           destruct (Hin _ _ Hitem) as (p' & Hp' & _). exists key.
           simpl. by rewrite Hp'.
Qed.

(** X12, witness: a table with the two directions between A and B. *)
Lemma convert_travel_lookup_two_way :
  ∃ travel, convert_travel [("A,B", 25); ("B,A", 30)] = Some travel
    ∧ travel !! ("A", "B") = Some 25
    ∧ travel !! ("B", "A") = Some 30
    ∧ size travel = 2%nat.
Proof.
  destruct (convert_travel_lookup [("A,B", 25); ("B,A", 30)]) as [_ Hsome];
    [compute_done|].
  pose (both := <[("B", "A") := 30]> (<[("A", "B") := 25]> ∅)
               : gmap (string * string) Z).
  assert (Hc : convert_travel [("A,B", 25); ("B,A", 30)] = Some both)
    by reflexivity.
  destruct (Hsome both Hc) as [Hlookup Hsize].
  exists both. split; [exact Hc|].
  split.
  { apply (Hlookup "A" "B" 25). split; [left|split; reflexivity]. }
  split.
  { apply (Hlookup "B" "A" 30). split; [right; left|split; reflexivity]. }
  exact Hsize.
Defined.

Lemma setitem_fresh {V} (d : list (string * V)) k v :
  k ∉ d.*1 → setitem d k v = d ++ [(k, v)].
Proof.
  induction d as [|[k' v'] d IH]; simpl; [done|].
  intros Hk. apply not_elem_of_cons in Hk as [Hne Hk].
  rewrite decide_False by done. by rewrite IH.
Qed.

Section HandlerFacts.
Context {Any : Type}.
Variable as_int : Any → option Z.
Variable as_str : Any → option string.
Variable now : string.

Lemma foldl_occurrences_None items : foldl (occurrence_step as_int as_str) None items = None.
Proof. induction items; simpl; done. Qed.

Lemma foldl_occurrences_fails items d0 :
  foldl (occurrence_step as_int as_str) (Some d0) items = None
  ↔ ∃ item, item ∈ items ∧ build_entry as_int as_str item.2 = None.
Proof.
  revert d0. induction items as [|item items IH]; intros d0; simpl.
  - split; [done|]. intros (item & Hk & _). by apply elem_of_nil in Hk.
  - destruct (build_entry as_int as_str item.2) as [e|] eqn:He; simpl.
    + rewrite IH. split.
      * intros (item' & Hk & Hn). exists item'. split; [by right|done].
      * intros (item' & [->|Hk]%elem_of_cons & Hn); [congruence|]. eauto.
    + rewrite foldl_occurrences_None. split; [|done]. intros _.
      exists item. split; [left|done].
Qed.

Lemma foldl_occurrences_Some items d0 occs :
  NoDup (d0.*1 ++ items.*1) →
  foldl (occurrence_step as_int as_str) (Some d0) items = Some occs →
  ∃ built, occs = d0 ++ built
    ∧ built.*1 = items.*1
    ∧ Forall2 (λ item oe, build_entry as_int as_str item.2 = Some oe.2) items built.
Proof.
  revert d0. induction items as [|[k data] items IH]; intros d0 Hnd; simpl.
  - intros [= <-]. exists []. by rewrite app_nil_r.
  - destruct (build_entry as_int as_str data) as [e|] eqn:He; simpl;
      [|by rewrite foldl_occurrences_None].
    assert (Hk : k ∉ d0.*1).
    { apply NoDup_app in Hnd as (_ & Hdisj & _). intros Hk.
      apply (Hdisj k Hk). left. }
    rewrite setitem_fresh by done. intros Hf.
    destruct (IH (d0 ++ [(k, e)])) as (built & -> & Hkeys & Hall); [|done|].
    { rewrite fmap_app, <-app_assoc. done. }
    exists ((k, e) :: built). split; [by rewrite <-app_assoc|].
    split; [rewrite fmap_cons, Hkeys; done|]. by constructor.
Qed.

Lemma build_entry_Some data e :
  build_entry as_int as_str data = Some e
  ↔ ∃ ev dy st en lc,
      data !! "event" = Some ev ∧ data !! "day" = Some dy
      ∧ data !! "start" = Some st ∧ data !! "end" = Some en
      ∧ data !! "loc" = Some lc
      ∧ as_int ev = Some (event e) ∧ as_int dy = Some (day e)
      ∧ as_int st = Some (start e) ∧ as_int en = Some (end_ e)
      ∧ as_str lc = Some (loc e).
Proof.
  unfold build_entry. split.
  - intros Hb.
    destruct (data !! "event") as [ev|]; [|done].
    destruct (data !! "day") as [dy|]; [|done].
    destruct (data !! "start") as [st|]; [|done].
    destruct (data !! "end") as [en|]; [|done].
    destruct (data !! "loc") as [lc|]; [|done]. simpl in Hb.
    destruct (as_int ev) as [ev'|] eqn:Hev; [|done].
    destruct (as_int dy) as [dy'|] eqn:Hdy; [|done].
    destruct (as_int st) as [st'|] eqn:Hst; [|done].
    destruct (as_int en) as [en'|] eqn:Hen; [|done].
    destruct (as_str lc) as [lc'|] eqn:Hlc; [|done]. simpl in Hb.
    injection Hb as <-. exists ev, dy, st, en, lc. repeat split; done.
  - intros (ev & dy & st & en & lc & H1 & H2 & H3 & H4 & H5 & H6 & H7 & H8 & H9 & H10).
    rewrite H1, H2, H3, H4, H5. simpl. rewrite H6, H7, H8, H9, H10. simpl.
    by destruct e.
Qed.

(** X13.  Converting the occurrences of a request (a dictionary, so with
    distinct keys) keeps the keys and their order and builds every entry
    from the five fields of its own data; it fails exactly when some entry
    cannot be built, which is the case whenever one of the five fields is
    missing. *)
Theorem convert_occurrences_keeps_keys items :
  NoDup items.*1 →
  (convert_occurrences as_int as_str items = None
   ↔ ∃ item, item ∈ items ∧ build_entry as_int as_str item.2 = None)
  ∧ (∀ occs, convert_occurrences as_int as_str items = Some occs →
       occs.*1 = items.*1
       ∧ Forall2 (λ item oe, build_entry as_int as_str item.2 = Some oe.2)
                 items occs)
  ∧ (∀ data field, field ∈ ["event"; "day"; "start"; "end"; "loc"] →
       data !! field = None → build_entry as_int as_str data = None).
Proof.
  intros Hnd. split; [apply foldl_occurrences_fails|]. split.
  - intros occs Hc.
    destruct (foldl_occurrences_Some items [] occs) as (built & -> & Hk & Hall);
      done.
  - intros data field Hfield Hnone. apply eq_None_not_Some.
    intros [e (ev & dy & st & en & lc & H1 & H2 & H3 & H4 & H5 & _)%build_entry_Some].
    repeat (apply elem_of_cons in Hfield as [->|Hfield]; [congruence|]).
    by apply elem_of_nil in Hfield.
Qed.
End HandlerFacts.

(** X13, witness: the occurrences of [two_request] convert to [two_occs]. *)
Lemma convert_occurrences_two_request :
  convert_occurrences strict_int strict_str (req_occurrences two_request)
  = Some two_occs
  ∧ two_occs.*1 = (req_occurrences two_request).*1.
Proof.
  split; [vm_compute; reflexivity|].
  destruct (convert_occurrences_keeps_keys strict_int strict_str
              (req_occurrences two_request)) as (_ & Hsome & _);
    [compute_done|].
  apply (Hsome two_occs). vm_compute. reflexivity.
Defined.

Lemma same_day_pairs_nil occs travel b (self := init occs travel b) :
  NoDup occs.*1 →
  same_day_pairs self = []
  ↔ ∀ k m, k ∈ K self → m ∈ K self → k ≠ m →
           day (occ self k) ≠ day (occ self m).
Proof.
  intros Hnd. split.
  - intros Hnil k m Hk Hm Hne Hday.
    assert (Hin : (k, m) ∈ same_day_pairs self) by by apply elem_of_same_day_pairs.
    rewrite Hnil in Hin. by apply elem_of_nil in Hin.
  - intros Hall. destruct (same_day_pairs self) as [|[k m] ps] eqn:Hp; [done|].
    assert (Hin : (k, m) ∈ same_day_pairs self) by (rewrite Hp; left).
    apply elem_of_same_day_pairs in Hin as (Hk & Hm & Hne & Hday); [|done].
    by destruct (Hall k m).
Qed.

(** X14.  With [buffer_minutes = None] the optimizer fails with a
    TypeError, before any run of the engine, when two occurrences share a
    day; when no two occurrences share a day the buffer is never read and
    the call runs as with an integer buffer. *)
Theorem null_buffer_fails_on_shared_day occs travel buffer_arg solve
    (self := init occs travel buffer_arg) :
  NoDup occs.*1 →
  ((∃ k m, k ∈ K self ∧ m ∈ K self ∧ k ≠ m
           ∧ day (occ self k) = day (occ self m)) →
   run_call solve (optimize_call self None) = Raised "TypeError"
   ∧ calls_of solve (optimize_call self None) = [])
  ∧ ((∀ k m, k ∈ K self → m ∈ K self → k ≠ m →
             day (occ self k) ≠ day (occ self m)) →
     run_call solve (optimize_call self None)
     = run_call solve (optimize_call self (Some (buffer_minutes self)))
     ∧ calls_of solve (optimize_call self None) = [prob self]).
Proof.
  intros Hnd. subst self. split.
  - intros (k & m & Hk & Hm & Hne & Hday).
    assert (Hin : (k, m) ∈ same_day_pairs (init occs travel buffer_arg))
      by by apply elem_of_same_day_pairs.
    destruct (run_call_None occs travel buffer_arg Hnd solve) as [Hcalls Hrun].
    { intros Hnil. rewrite Hnil in Hin. by apply elem_of_nil in Hin. }
    done.
  - intros Hall%same_day_pairs_nil; [|done].
    pose proof (build_prob_no_pair occs travel buffer_arg Hnd None Hall) as Hn.
    pose proof (build_prob_ok occs travel buffer_arg Hnd) as Hb.
    destruct (run_call_built occs travel buffer_arg _ solve Hn) as [-> ->].
    destruct (run_call_built occs travel buffer_arg _ solve Hb) as [_ ->].
    done.
Qed.

(** X14, witness: the two visits of [two_occs] share day 0. *)
Lemma null_buffer_fails_two_visits :
  run_call (λ _, Returned two_out) (optimize_call two_self None)
  = Raised "TypeError"
  ∧ calls_of (λ _, Returned two_out) (optimize_call two_self None) = [].
Proof.
  destruct (null_buffer_fails_on_shared_day two_occs two_travel None
              (λ _, Returned two_out) two_NoDup) as [Hfail _].
  apply Hfail. exists "a", "b". repeat split; [compute_done|compute_done|done].
Defined.

Section RouteFacts.
Context {Any : Type}.
Variable as_int : Any → option Z.
Variable as_str : Any → option string.
Variable now : string.

Lemma answer_call solve (body : Call Result) :
  calls_of solve (answer now body) = calls_of solve body
  ∧ run_call solve (answer now body)
    = Returned match run_call solve body with
               | Returned r => Ok200 (respond now r)
               | Raised _ => Error500
               end.
Proof.
  induction body as [[r|err]|p k IH]; [done|done|].
  cbn [answer calls_of run_call]. destruct (IH (solve p)) as [-> ->]. done.
Qed.

(** X15.  The route POST /optimize never raises and runs the engine at
    most once.  It answers 500 without running the engine when an
    occurrence or a travel key does not convert, or when the buffer is
    null and two occurrences share a day.  In every other case it runs
    the engine once on the model of the converted data; it answers 500
    when that run raises, and 200 with the schedule, days_used, chosen
    occurrences and status of the optimizer's result when it returns. *)
Theorem optimize_schedule_outcome (request : OptimizationRequest Any) solve
    (route := optimize_schedule as_int as_str now request) :
  NoDup (req_occurrences request).*1 →
  (convert_occurrences as_int as_str (req_occurrences request) = None
   ∨ convert_travel (req_travel_distances request) = None →
   run_call solve route = Returned Error500 ∧ calls_of solve route = [])
  ∧ ∀ occs travel,
      convert_occurrences as_int as_str (req_occurrences request) = Some occs →
      convert_travel (req_travel_distances request) = Some travel →
      let self := init occs travel (req_buffer_minutes request) in
      (req_buffer_minutes request = None ∧ same_day_pairs self ≠ [] →
       run_call solve route = Returned Error500 ∧ calls_of solve route = [])
      ∧ (req_buffer_minutes request ≠ None ∨ same_day_pairs self = [] →
         calls_of solve route = [prob self]
         ∧ run_call solve route
           = Returned match solve (prob self) with
                      | Returned out => Ok200 (respond now (extract self out))
                      | Raised _ => Error500
                      end).
Proof.
  intros Hnd. unfold route, optimize_schedule. split.
  - intros [-> | Ht]; [done|].
    destruct (convert_occurrences as_int as_str (req_occurrences request)); [|done].
    by rewrite Ht.
  - intros occs travel Ho Ht. rewrite Ho, Ht. cbn zeta.
    assert (Hkeys : NoDup occs.*1).
    { destruct (foldl_occurrences_Some as_int as_str (req_occurrences request)
                  [] occs) as (built & -> & Hk & _); [done|done|].
      cbn. by rewrite Hk. }
    set (self := init occs travel (req_buffer_minutes request)).
    destruct (answer_call solve
                (optimize_call self (req_buffer_minutes request))) as [-> ->].
    split.
    + intros [Hb Hp]. rewrite Hb.
      destruct (run_call_None occs travel (req_buffer_minutes request) Hkeys
                  solve Hp) as [Hc Hr].
      fold self in Hc, Hr. by rewrite Hc, Hr.
    + intros Hcase.
      assert (Hbuilt : build_prob self (req_buffer_minutes request)
                       = Returned (prob self)).
      { destruct (req_buffer_minutes request) as [b|] eqn:Hb.
        - apply (build_prob_ok occs travel (Some b) Hkeys).
        - destruct Hcase as [?|Hp]; [done|].
          by apply (build_prob_no_pair occs travel None Hkeys). }
      destruct (run_call_built occs travel (req_buffer_minutes request)
                  _ solve Hbuilt) as [Hc Hr].
      fold self in Hc, Hr. rewrite Hc, Hr.
      split; [done|]. by destruct (solve (prob self)).
Qed.
End RouteFacts.

(** X15, witness: [two_request], with its null buffer, is answered 500
    without a run of the engine; [two_request_60] is answered 200 with the
    schedule a, b when the engine returns its optimum, and 500 when the
    engine run raises. *)
Lemma optimize_schedule_two_requests :
  run_call (λ _, Returned two_out)
           (optimize_schedule strict_int strict_str "now" two_request)
  = Returned Error500
  ∧ calls_of (λ _, Returned two_out)
             (optimize_schedule strict_int strict_str "now" two_request) = []
  ∧ (∃ response,
       run_call (λ _, Returned two_out)
                (optimize_schedule strict_int strict_str "now" two_request_60)
       = Returned (Ok200 response)
       ∧ resp_schedule response !! 0 = Some ["a"; "b"]
       ∧ resp_status response = Optimal)
  ∧ run_call (λ _, Raised "PulpSolverError")
             (optimize_schedule strict_int strict_str "now" two_request_60)
    = Returned Error500.
Proof.
  assert (Ho : convert_occurrences strict_int strict_str
                 (req_occurrences two_request) = Some two_occs)
    by (vm_compute; reflexivity).
  assert (Ht : convert_travel (req_travel_distances two_request)
               = Some two_travel) by (vm_compute; reflexivity).
  destruct (optimize_schedule_outcome strict_int strict_str "now" two_request
              (λ _, Returned two_out)) as [_ Hnull]; [compute_done|].
  destruct (Hnull two_occs two_travel Ho Ht) as [[Hrun Hcalls] _].
  { split; [reflexivity|]. by vm_compute. }
  split; [exact Hrun|]. split; [exact Hcalls|].
  destruct (optimize_schedule_outcome strict_int strict_str "now" two_request_60
              (λ _, Returned two_out)) as [_ Hok]; [compute_done|].
  destruct (Hok two_occs two_travel Ho Ht) as [_ [_ Hrun60]]; [by left|].
  split.
  { eexists. split; [exact Hrun60|]. split; vm_compute; reflexivity. }
  destruct (optimize_schedule_outcome strict_int strict_str "now" two_request_60
              (λ _, Raised "PulpSolverError")) as [_ Herr]; [compute_done|].
  destruct (Herr two_occs two_travel Ho Ht) as [_ [_ Hrun_err]]; [by left|].
  exact Hrun_err.
Defined.

(** Every minimiser switches both day flags on. *)
Lemma far_optimal_flags val :
  optimal (prob far_self) val → (val (u_ 0) == 1 ∧ val (u_ 1) == 1)%Q.
Proof.
  intros [Hf Hmin]. specialize (Hmin _ far_two_days_feasible).
  rewrite far_prob in Hf, Hmin. read_feasible Hf.
  repeat match goal with
         | H : (_ == 0 ∨ _)%Q |- _ => destruct H
         end; split; lra.
Qed.

Lemma far_well_formed : well_formed far_occs ∅ (buffer_minutes far_self).
Proof.
  split; [|split].
  - repeat constructor; simpl; lia.
  - apply map_Forall_empty.
  - done.
Qed.

(** X16.  The number of days is not minimised at any price: there is a
    well-formed catalogue with a feasible one-day selection for which every
    Optimal result uses two days, because a same-day gap of more than 1000
    minutes costs more than an additional day. *)
Theorem fewer_days_not_always_preferred :
  ∃ occs travel buffer_arg,
    let self := init occs travel buffer_arg in
    NoDup occs.*1
    ∧ well_formed occs travel (buffer_minutes self)
    ∧ (∃ val, feasible (prob self) val
              ∧ days_used (extract self {| value := val; lp_status := Optimal |})
                = 1%nat)
    ∧ (∃ val, optimal (prob self) val)
    ∧ ∀ engine r,
        engine_contract (prob self) (engine (prob self)) →
        run engine (optimize self) = Returned r →
        status r = Optimal →
        days_used r = 2%nat.
Proof.
  exists far_occs, ∅, None. cbn zeta. fold far_self.
  split; [compute_done|]. split; [apply far_well_formed|].
  split; [exists far_one_day; split; [apply far_one_day_feasible|by vm_compute]|].
  split.
  - exists far_two_days. split; [apply far_two_days_feasible|].
    intros val' Hf. rewrite far_prob in Hf |- *. read_feasible Hf.
    repeat match goal with
           | H : (_ == 0 ∨ _)%Q |- _ => destruct H
           end; lra.
  - intros engine r Hc Hrun Hst. rewrite run_optimize in Hrun. injection Hrun as <-.
    destruct (far_optimal_flags _ (Hc Hst)) as [H0 H1].
    rewrite days_used_length.
    change (days far_self) with [0; 1].
    rewrite !filter_cons, filter_nil.
    rewrite !decide_True by (by apply gt_half_one). done.
Qed.

(** X17.  For every catalogue, the optimizer's days and events list the
    distinct day and event numbers of the occurrences in strictly
    increasing order, and its keys are the catalogue keys in their
    order. *)
Theorem init_days_events_sorted occs travel buffer_arg
    (self := init occs travel buffer_arg) :
  StronglySorted Z.lt (days self)
  ∧ StronglySorted Z.lt (events self)
  ∧ (∀ d, d ∈ days self ↔ ∃ k e, (k, e) ∈ occs ∧ day e = d)
  ∧ (∀ i, i ∈ events self ↔ ∃ k e, (k, e) ∈ occs ∧ event e = i)
  ∧ K self = occs.*1.
Proof.
  split; [apply sorted_set_increasing|]. split; [apply sorted_set_increasing|].
  split; [apply elem_of_days|]. split; [apply elem_of_events|]. reflexivity.
Qed.

Lemma NoDup_same_day_pairs occs travel buffer_arg :
  NoDup occs.*1 → NoDup (same_day_pairs (init occs travel buffer_arg)).
Proof. intros Hnd. by apply NoDup_filter, NoDup_permutations2. Qed.

(** X18.  The pair list holds every ordered pair of two different keys of
    one day, each exactly once, and nothing else. *)
Theorem same_day_pairs_complete occs travel buffer_arg
    (self := init occs travel buffer_arg) :
  NoDup occs.*1 →
  NoDup (same_day_pairs self)
  ∧ ∀ k m, (k, m) ∈ same_day_pairs self
           ↔ k ∈ K self ∧ m ∈ K self ∧ k ≠ m
             ∧ day (occ self k) = day (occ self m).
Proof.
  intros Hnd. split; [by apply NoDup_same_day_pairs|].
  intros k m. by apply elem_of_same_day_pairs.
Qed.

(** X18, witness on the sample data: eight ordered pairs, six on Monday and
    two on Tuesday. *)
Lemma same_day_pairs_sample :
  length (same_day_pairs sample_self) = 8%nat
  ∧ NoDup (same_day_pairs sample_self)
  ∧ ∀ k m, (k, m) ∈ same_day_pairs sample_self
           ↔ k ∈ K sample_self ∧ m ∈ K sample_self ∧ k ≠ m
             ∧ day (occ sample_self k) = day (occ sample_self m).
Proof.
  split; [reflexivity|].
  apply (same_day_pairs_complete sample_occs sample_travel None). compute_done.
Defined.
